(** * MPM fracture line-crossing algorithm: model of [utils.ts]

    The development follows [utils.ts] of the visualizer: the signed-area
    predicate ([triangleArea], [checkCrossing]), the connectivity builder,
    the per-pair crossing counters with their cancellation rule, the
    per-node consistency pass, the base-3 field encoder and the recorder
    that appends a [SimulationStep] after every action.

    Numbers.  A TypeScript [number] is an IEEE double.  Coordinates and
    areas are modelled as rationals ([Q], exact arithmetic: rounding,
    infinities and NaN are outside the model); ids, counters, labels and
    encoded fields are integers ([Z]); array indices are [nat].

    Objects used as dictionaries are [gmap]s.  The accumulator key
    [`${nodeId}-${p.id}`] is modelled by the pair [(nodeId, p.id)]: on
    integer ids the template string determines both components. *)

From Stdlib Require Import ZArith QArith Qpower Qminmax Lia Lqa List String Sorted.
From stdpp Require Import base option list gmap.
From Equations Require Import Equations.

Local Open Scope Z_scope.

(** ** Data model ([types.ts]) *)

Record Point := mkPoint { x : Q; y : Q }.

(** [interface Node extends Point { id }], [interface Particle extends Point { id }]:
    the point part is kept as a field, read through a coercion. *)
Record Node := mkNode { node_id : Z; node_pt :> Point }.
Record Particle := mkParticle { particle_id : Z; particle_pt :> Point }.

Record Crack := mkCrack { crack_id : Z; points : list Point }.

Record Areas := mkAreas { area1 : Q; area2 : Q; area3 : Q; area4 : Q }.

Record Crossing := mkCrossing { result : Z; areas : Areas }.

(** ** Geometry predicate *)

Definition triangleArea (x1 x2 x3 : Point) : Q :=
  (x x1 * (y x2 - y x3) + x x2 * (y x3 - y x1) + x x3 * (y x1 - y x2))%Q.

Definition distSq (p1 p2 : Point) : Q :=
  ((x p1 - x p2) ^ 2 + (y p1 - y p2) ^ 2)%Q.

(** [a < b] and [a >= b] on numbers, as booleans. *)
Definition Qltb (a b : Q) : bool := negb (Qle_bool b a).
Definition Qgeb (a b : Q) : bool := Qle_bool b a.

Definition checkCrossing (p n cStart cEnd : Point) : Crossing :=
  let area1 := triangleArea p n cStart in
  let area2 := triangleArea p n cEnd in
  let area3 := triangleArea cStart cEnd p in
  let area4 := triangleArea cStart cEnd n in
  let result :=
    if Qltb area1 0 && Qgeb area2 0 && Qgeb area3 0 && Qltb area4 0 then 2
    else if Qgeb area1 0 && Qltb area2 0 && Qltb area3 0 && Qgeb area4 0 then 3
    else 0 in
  mkCrossing result (mkAreas area1 area2 area3 area4).

(** ** Outcomes and the state monad of the recorder

    [TypeError] is the exception JavaScript raises when a property of
    [undefined] is read ([particleToNodes[p.id].forEach] on a missing
    entry, [fieldAccumulator[key][crackIdx]] on a missing key, [n.id] after
    a failed [find]).  [SlotOutOfRange] marks a read or write of a label
    array beyond its length, where JavaScript yields [undefined] or grows
    the array: the arrays are created with one slot per crack and
    [crackIdx] ranges over the cracks, so the program never gets there
    (see [generateSimulationSteps_outcome]) and the model stops instead of
    describing sparse arrays. *)

Inductive Failure := TypeError | SlotOutOfRange.

Inductive outcome (A : Type) :=
| Returns (a : A)
| Fails (e : Failure).
Arguments Returns {A} a.
Arguments Fails {A} e.

Definition M (S A : Type) : Type := S -> outcome (A * S).

#[global] Instance M_ret {S} : MRet (M S) := fun A a s => Returns (a, s).
#[global] Instance M_bind {S} : MBind (M S) := fun A B k m s =>
  match m s with
  | Returns (a, s') => k a s'
  | Fails e => Fails e
  end.

Definition throw {S A} (e : Failure) : M S A := fun _ => Fails e.
Definition modify {S} (f : S -> S) : M S unit := fun s => Returns (tt, f s).

(** [o] is a value that may be [undefined]; using it raises [TypeError]. *)
Definition defined {S A} (o : option A) : M S A :=
  match o with
  | Some a => mret a
  | None => throw TypeError
  end.

(** [l.forEach(body)] *)
Fixpoint forEach {S A} (l : list A) (body : A -> M S unit) : M S unit :=
  match l with
  | [] => mret tt
  | a :: l' => body a ;; forEach l' body
  end.

(** ** Connectivity builder *)

(** [Array.prototype.sort] is stable: with a comparator [a - b] on keys the
    result is the stable ascending arrangement, here by insertion. *)
Fixpoint insertBy {A} (lt : A -> A -> bool) (a : A) (l : list A) : list A :=
  match l with
  | [] => [a]
  | b :: l' => if lt b a then b :: insertBy lt a l' else a :: b :: l'
  end.

Definition stableSort {A} (lt : A -> A -> bool) (l : list A) : list A :=
  foldr (insertBy lt) [] l.

(** [[...nodes].sort((a, b) => distSq(p, a) - distSq(p, b)).slice(0, 4)] *)
Definition closestNodes (p : Point) (nodes : list Node) : list Node :=
  take 4 (stableSort (fun a b : Node => Qltb (distSq p a) (distSq p b)) nodes).

Record Connectivity := mkConnectivity {
  particleToNodes : gmap Z (list Z);
  nodeToParticles : gmap Z (list Z)
}.

Definition registerNode (n : Node) : M Connectivity unit :=
  modify (fun c => mkConnectivity (particleToNodes c)
                     (<[node_id n := []]> (nodeToParticles c))).

(** [nodeToParticles[n.id].push(p.id)] *)
Definition pushParticle (n : Node) (p : Particle) : M Connectivity unit :=
  ps ← (fun c => defined (nodeToParticles c !! node_id n) c);
  modify (fun c => mkConnectivity (particleToNodes c)
                     (<[node_id n := ps ++ [particle_id p]]> (nodeToParticles c))).

Definition connectParticle (nodes : list Node) (p : Particle) : M Connectivity unit :=
  let connected := closestNodes p nodes in
  modify (fun c => mkConnectivity
                     (<[particle_id p := map node_id connected]> (particleToNodes c))
                     (nodeToParticles c)) ;;
  forEach connected (fun n => pushParticle n p).

Definition buildConnectivity (nodes : list Node) (particles : list Particle)
  : M Connectivity unit :=
  forEach nodes registerNode ;;
  forEach particles (connectParticle nodes).

(** ** Field encoder *)

(** [acc[key].forEach((fieldVal, idx) => val += fieldVal * 3 ** idx)] *)
Fixpoint combineFrom (idx : nat) (val : Z) (labels : list Z) : Z :=
  match labels with
  | [] => val
  | fieldVal :: rest => combineFrom (S idx) (val + fieldVal * 3 ^ Z.of_nat idx) rest
  end.

Definition combine (labels : list Z) : Z := combineFrom 0 0 labels.

Definition computeCombinedField (acc : gmap (Z * Z) (list Z)) : gmap (Z * Z) Z :=
  combine <$> acc.

(** ** Trace steps *)

Inductive Verdict := NoNetCrossing | NetAbove | NetBelow.

(** The description templates of [utils.ts], with the interpolated values. *)
Inductive Description :=
| Initialization
| ProcessingCrack (crackNumber : Z)
| Checking (nodeId particleId : Z) (segment : nat)
| ResultOf (nodeId particleId : Z) (verdict : Verdict)
| ConsistencyCheckPhase (crackNumber : Z)
| NodeSees (nodeId : Z) (fields : list Z)
| Warning (nodeId : Z)
| Normalizing (nodeId remapFrom remapTo : Z)
| ComputationComplete.

Record Triangles := mkTriangles {
  triangleA : list Point;
  triangleB : list Point;
  triangleC : list Point;
  triangleD : list Point
}.

Record SimulationStep := mkStep {
  stepId : Z;
  description : Description;
  highlightNodeId : option Z;
  highlightParticleId : option Z;
  highlightCrackId : option Z;
  highlightSegmentIndex : option nat;
  segmentCounts : option (Z * Z);
  triangles : option Triangles;
  stepAreas : option Areas;
  crossingResult : option Z;
  consistencyNodeId : option Z;
  consistencyFields : option (list Z);
  normalizationAction : option (Z * Z);
  currentFieldState : gmap (Z * Z) Z
}.

Record RunState := mkRun {
  steps : list SimulationStep;
  stepCounter : Z;
  fieldAccumulator : gmap (Z * Z) (list Z)
}.

(** [steps.push({ stepId: stepCounter++, ..., currentFieldState:
    computeCombinedField(fieldAccumulator) })] *)
Definition push (mk : Z -> gmap (Z * Z) Z -> SimulationStep) : M RunState unit :=
  modify (fun st =>
    mkRun (steps st ++ [mk (stepCounter st) (computeCombinedField (fieldAccumulator st))])
          (stepCounter st + 1)
          (fieldAccumulator st)).

Definition initStep (sid : Z) (snap : gmap (Z * Z) Z) : SimulationStep :=
  mkStep sid Initialization None None None None None None None None None None None snap.

Definition crackStep (crack : Crack) (sid : Z) (snap : gmap (Z * Z) Z) : SimulationStep :=
  mkStep sid (ProcessingCrack (crack_id crack + 1)) None None (Some (crack_id crack))
         None None None None None None None None snap.

Definition checkStep (p : Particle) (n : Node) (crack : Crack) (i : nat)
    (cStart cEnd : Point) (c : Crossing) (f2 f3 : Z)
    (sid : Z) (snap : gmap (Z * Z) Z) : SimulationStep :=
  mkStep sid (Checking (node_id n) (particle_id p) i)
         (Some (node_id n)) (Some (particle_id p)) (Some (crack_id crack)) (Some i)
         (Some (f2, f3))
         (Some (mkTriangles [p : Point; n : Point; cStart] [p : Point; n : Point; cEnd]
                            [cStart; cEnd; p : Point] [cStart; cEnd; n : Point]))
         (Some (areas c)) (Some (result c)) None None None snap.

Definition verdictOf (finalField : Z) : Verdict :=
  if finalField =? 1 then NoNetCrossing
  else if finalField =? 2 then NetAbove else NetBelow.

Definition resultStep (p : Particle) (n : Node) (crack : Crack) (finalField : Z)
    (sid : Z) (snap : gmap (Z * Z) Z) : SimulationStep :=
  mkStep sid (ResultOf (node_id n) (particle_id p) (verdictOf finalField))
         (Some (node_id n)) (Some (particle_id p)) (Some (crack_id crack)) None
         None None None (Some finalField) None None None snap.

Definition phaseStep (crack : Crack) (sid : Z) (snap : gmap (Z * Z) Z) : SimulationStep :=
  mkStep sid (ConsistencyCheckPhase (crack_id crack + 1)) None None (Some (crack_id crack))
         None None None None None None None None snap.

Definition seesStep (n : Node) (sortedFields : list Z)
    (sid : Z) (snap : gmap (Z * Z) Z) : SimulationStep :=
  mkStep sid (NodeSees (node_id n) sortedFields) (Some (node_id n)) None None None
         None None None None (Some (node_id n)) (Some sortedFields) None snap.

Definition warningStep (n : Node) (sortedFields : list Z)
    (sid : Z) (snap : gmap (Z * Z) Z) : SimulationStep :=
  mkStep sid (Warning (node_id n)) (Some (node_id n)) None None None
         None None None None (Some (node_id n)) (Some sortedFields) None snap.

Definition normalizeStep (n : Node) (sortedFields : list Z) (remapFrom remapTo : Z)
    (sid : Z) (snap : gmap (Z * Z) Z) : SimulationStep :=
  mkStep sid (Normalizing (node_id n) remapFrom remapTo) (Some (node_id n)) None None None
         None None None None (Some (node_id n)) (Some sortedFields)
         (Some (remapFrom, remapTo)) snap.

Definition completeStep (sid : Z) (snap : gmap (Z * Z) Z) : SimulationStep :=
  mkStep sid ComputationComplete None None None None None None None None None None None snap.

(** ** Accumulator slots *)

(** [fieldAccumulator[key][crackIdx]] *)
Definition readSlot (key : Z * Z) (crackIdx : nat) : M RunState Z := fun st =>
  match fieldAccumulator st !! key with
  | None => Fails TypeError
  | Some labels =>
      match labels !! crackIdx with
      | Some v => Returns (v, st)
      | None => Fails SlotOutOfRange
      end
  end.

(** [fieldAccumulator[key][crackIdx] = v] *)
Definition writeSlot (key : Z * Z) (crackIdx : nat) (v : Z) : M RunState unit := fun st =>
  match fieldAccumulator st !! key with
  | None => Fails TypeError
  | Some labels =>
      if decide (crackIdx < length labels)%nat
      then Returns (tt, mkRun (steps st) (stepCounter st)
                          (<[key := <[crackIdx := v]> labels]> (fieldAccumulator st)))
      else Fails SlotOutOfRange
  end.

(** [fieldAccumulator[key] = new Array(cracks.length).fill(1)] *)
Definition freshSlots (key : Z * Z) (ncracks : nat) : M RunState unit :=
  modify (fun st => mkRun (steps st) (stepCounter st)
                      (<[key := replicate ncracks 1]> (fieldAccumulator st))).

(** ** Field accumulator: counting and cancellation *)

Definition cancellation (field2_count field3_count : Z) : Z * Z :=
  if (0 <? field2_count) && (0 <? field3_count)
  then let min := Z.min field2_count field3_count in
       (field2_count - min, field3_count - min)
  else (field2_count, field3_count).

Definition finalFieldOf (counts : Z * Z) : Z :=
  if Z.rem (fst counts) 2 =? 1 then 2
  else if Z.rem (snd counts) 2 =? 1 then 3
  else 1.

(** [new Set<number>().add(val)]: insertion order, no duplicates. *)
Definition setAdd (val : Z) (seen : list Z) : list Z :=
  if bool_decide (val ∈ seen) then seen else seen ++ [val].

(** [Array.from(seenFields).sort((a, b) => a - b)] *)
Definition sortNumeric (l : list Z) : list Z := stableSort Z.ltb l.

(** [sortedFields.includes(v)] *)
Definition includes (v : Z) (l : list Z) : bool := bool_decide (v ∈ l).

Definition remapChoice (sortedFields : list Z) : Z * Z :=
  if includes 1 sortedFields && includes 2 sortedFields then (1, 3)
  else if includes 1 sortedFields && includes 3 sortedFields then (1, 2)
  else (-1, -1).

Section Run.
Context (nodes : list Node) (particles : list Particle) (cracks : list Crack)
        (conn : Connectivity).

(** [nodes.find(node => node.id === nodeId)] *)
Definition findNode (nodeId : Z) : option Node :=
  List.find (fun node => node_id node =? nodeId) nodes.

Definition initAccumulator : M RunState unit :=
  forEach particles (fun p =>
    ids ← defined (particleToNodes conn !! particle_id p);
    forEach ids (fun nodeId =>
      freshSlots (nodeId, particle_id p) (length cracks))).

(** The [for] loop over the segments [points[i], points[i+1]], from index
    [i] with [pts] the points from [points[i]] on; returns the counters. *)
Fixpoint segmentLoop (p : Particle) (n : Node) (crack : Crack) (i : nat)
    (pts : list Point) (field2_count field3_count : Z) : M RunState (Z * Z) :=
  match pts with
  | cStart :: ((cEnd :: _) as rest) =>
      let c := checkCrossing p n cStart cEnd in
      let field2_count := if result c =? 2 then field2_count + 1 else field2_count in
      let field3_count := if result c =? 3 then field3_count + 1 else field3_count in
      push (checkStep p n crack i cStart cEnd c field2_count field3_count) ;;
      segmentLoop p n crack (S i) rest field2_count field3_count
  | _ => mret (field2_count, field3_count)
  end.

Definition processPair (crack : Crack) (crackIdx : nat) (p : Particle) (nodeId : Z)
  : M RunState unit :=
  n ← defined (findNode nodeId);
  let key := (node_id n, particle_id p) in
  counts ← segmentLoop p n crack 0 (points crack) 0 0;
  let finalField := finalFieldOf (cancellation (fst counts) (snd counts)) in
  old ← readSlot key crackIdx;
  let changed := negb (old =? finalField) in
  writeSlot key crackIdx finalField ;;
  if changed || negb (finalField =? 1)
  then push (resultStep p n crack finalField)
  else mret tt.

Definition crossingPhase (crack : Crack) (crackIdx : nat) : M RunState unit :=
  forEach particles (fun p =>
    connectedNodeIds ← defined (particleToNodes conn !! particle_id p);
    forEach connectedNodeIds (processPair crack crackIdx p)).

(** The loop filling [seenFields]. *)
Fixpoint collectSeen (n : Node) (crackIdx : nat) (pids : list Z) (seen : list Z)
  : M RunState (list Z) :=
  match pids with
  | [] => mret seen
  | pid :: rest =>
      val ← readSlot (node_id n, pid) crackIdx;
      collectSeen n crackIdx rest (setAdd val seen)
  end.

Definition remapPair (n : Node) (crackIdx : nat) (remapFrom remapTo : Z) (pid : Z)
  : M RunState unit :=
  let key := (node_id n, pid) in
  val ← readSlot key crackIdx;
  if val =? remapFrom then writeSlot key crackIdx remapTo else mret tt.

Definition consistencyNode (crackIdx : nat) (n : Node) : M RunState unit :=
  connectedParticleIds ← defined (nodeToParticles conn !! node_id n);
  if (length connectedParticleIds =? 0)%nat then mret tt
  else
    seenFields ← collectSeen n crackIdx connectedParticleIds [];
    let sortedFields := sortNumeric seenFields in
    push (seesStep n sortedFields) ;;
    (if (length sortedFields =? 3)%nat
     then push (warningStep n sortedFields) else mret tt) ;;
    if (length sortedFields =? 2)%nat
    then
      let remap := remapChoice sortedFields in
      if negb (fst remap =? -1)
      then
        forEach connectedParticleIds (remapPair n crackIdx (fst remap) (snd remap)) ;;
        push (normalizeStep n sortedFields (fst remap) (snd remap))
      else mret tt
    else mret tt.

Definition processCrack (indexed : nat * Crack) : M RunState unit :=
  let crackIdx := fst indexed in
  let crack := snd indexed in
  push (crackStep crack) ;;
  crossingPhase crack crackIdx ;;
  push (phaseStep crack) ;;
  forEach nodes (consistencyNode crackIdx).

Definition recordTrace : M RunState unit :=
  initAccumulator ;;
  push initStep ;;
  forEach (imap pair cracks) processCrack ;;
  push completeStep.
End Run.

Definition generateSimulationSteps (nodes : list Node) (particles : list Particle)
    (cracks : list Crack) : outcome (list SimulationStep) :=
  match buildConnectivity nodes particles (mkConnectivity ∅ ∅) with
  | Fails e => Fails e
  | Returns (_, conn) =>
      match recordTrace nodes particles cracks conn (mkRun [] 0 ∅) with
      | Fails e => Fails e
      | Returns (_, st) => Returns (steps st)
      end
  end.

(** ** The presets of [utils.ts] *)

Definition pt (a b : Z) : Point := mkPoint (inject_Z a) (inject_Z b).

Definition case1_nodes : list Node :=
  [mkNode 0 (pt 2 2); mkNode 1 (pt 8 2); mkNode 2 (pt 2 8); mkNode 3 (pt 8 8)].
Definition case1_particles : list Particle :=
  [mkParticle 0 (pt 5 4); mkParticle 1 (pt 5 6)].
Definition case1_cracks : list Crack :=
  [mkCrack 0 [pt 1 5; pt 9 5]].

Definition case2_nodes : list Node :=
  [mkNode 0 (pt 2 2); mkNode 1 (pt 5 2); mkNode 2 (pt 8 2);
   mkNode 3 (pt 2 5); mkNode 4 (pt 5 5); mkNode 5 (pt 8 5);
   mkNode 6 (pt 2 8); mkNode 7 (pt 5 8); mkNode 8 (pt 8 8)].

(** ** Specification vocabulary *)

(** Outcome of a computation [m] started in [s]: the postcondition [Q] on a
    normal return, [F] on the failure raised. *)
Definition wp {S A} (F : Failure -> Prop) (m : M S A) (Q : A -> S -> Prop) (s : S) : Prop :=
  match m s with
  | Returns (a, s') => Q a s'
  | Fails e => F e
  end.

Definition never : Failure -> Prop := fun _ => False.

(** The consecutive pairs [points[i], points[i+1]]. *)
Definition segments (pts : list Point) : list (Point * Point) := zip pts (tail pts).

(** The results of [checkCrossing] along a polyline. *)
Definition classification (p n : Point) (pts : list Point) : list Z :=
  map (fun se => result (checkCrossing p n (fst se) (snd se))) (segments pts).

Definition countOf (v : Z) (l : list Z) : Z := Z.of_nat (count_occ Z.eq_dec l v).

Definition labelOK (v : Z) : Prop := v = 1 \/ v = 2 \/ v = 3.

Definition shortCrack (c : Crack) : Prop := (length (points c) < 2)%nat.

(** The label of a pair for a crack, when the pair has a slot for it. *)
Definition labelAt (acc : gmap (Z * Z) (list Z)) (key : Z * Z) (crackIdx : nat) : option Z :=
  acc !! key ≫= (fun labels => labels !! crackIdx).

(** The labels a node sees among its connected particles for a crack. *)
Definition sees (acc : gmap (Z * Z) (list Z)) (n : Node) (pids : list Z) (crackIdx : nat)
    (v : Z) : Prop :=
  exists pid, pid ∈ pids /\ labelAt acc (node_id n, pid) crackIdx = Some v.

(** Every connected particle of the node has a slot for the crack. *)
Definition slotsPresent (acc : gmap (Z * Z) (list Z)) (n : Node) (pids : list Z)
    (crackIdx : nat) : Prop :=
  forall pid, pid ∈ pids -> is_Some (labelAt acc (node_id n, pid) crackIdx).


Definition isCrossingStep (s : SimulationStep) : Prop :=
  match description s with
  | Checking _ _ _ | ResultOf _ _ _ => True
  | _ => False
  end.

Definition isWarning (s : SimulationStep) : bool :=
  match description s with
  | Warning _ => true
  | _ => false
  end.

Definition isPerNodeStep (s : SimulationStep) : Prop :=
  match description s with
  | NodeSees _ _ | Warning _ | Normalizing _ _ _ => True
  | _ => False
  end.

(** What the connectivity builder establishes. *)
Record connOK (nodes : list Node) (particles : list Particle) (conn : Connectivity) : Prop := {
  conn_particle : forall p, p ∈ particles ->
    is_Some (particleToNodes conn !! particle_id p);
  conn_nodes_known : forall pid ids, particleToNodes conn !! pid = Some ids ->
    forall nid, nid ∈ ids -> exists n, n ∈ nodes /\ node_id n = nid;
  conn_node : forall n, n ∈ nodes -> is_Some (nodeToParticles conn !! node_id n);
  conn_particles_known : forall nid ps, nodeToParticles conn !! nid = Some ps ->
    forall pid, pid ∈ ps -> exists p, p ∈ particles /\ particle_id p = pid;
  conn_inverse : NoDup (map particle_id particles) ->
    forall nid ps, nodeToParticles conn !! nid = Some ps ->
    forall pid, pid ∈ ps ->
    exists ids, particleToNodes conn !! pid = Some ids /\ nid ∈ ids
}.

(** The state of the label arrays: one slot per crack, every label in
    {1,2,3}, and label 1 in the slot of a crack without segments. *)
Definition slotsOK (cracks : list Crack) (acc : gmap (Z * Z) (list Z)) : Prop :=
  forall key labels, acc !! key = Some labels ->
    length labels = length cracks /\
    Forall labelOK labels /\
    forall i c, cracks !! i = Some c -> shortCrack c -> labels !! i = Some 1.

Definition stepOK (cracks : list Crack) (s : SimulationStep) : Prop :=
  (exists acc, slotsOK cracks acc /\ currentFieldState s = computeCombinedField acc) /\
  (isCrossingStep s ->
     exists c, c ∈ cracks /\ ~ shortCrack c /\ highlightCrackId s = Some (crack_id c)).

(** Failures the recorder can end in: a [TypeError] only when two
    particles share an id. *)
Definition mayFail (particles : list Particle) (e : Failure) : Prop :=
  match e with
  | TypeError => ~ NoDup (map particle_id particles)
  | SlotOutOfRange => False
  end.

Definition runOK (particles : list Particle) (cracks : list Crack) (conn : Connectivity)
    (first : SimulationStep) (st : RunState) : Prop :=
  (forall p ids nid, p ∈ particles -> particleToNodes conn !! particle_id p = Some ids ->
     nid ∈ ids -> is_Some (fieldAccumulator st !! (nid, particle_id p))) /\
  slotsOK cracks (fieldAccumulator st) /\
  Forall (stepOK cracks) (steps st) /\
  head (steps st) = Some first.

(** The slots a loop over [pids] is about to use: a missing key is a
    failure that must be allowed, a present array must reach [crackIdx]. *)
Definition slotsUsable (F : Failure -> Prop) (acc : gmap (Z * Z) (list Z)) (n : Node)
    (pids : list Z) (crackIdx : nat) : Prop :=
  forall pid, pid ∈ pids ->
    match acc !! (node_id n, pid) with
    | None => F TypeError
    | Some labels => (crackIdx < length labels)%nat
    end.

(** The effect of a remap on one label array. *)
Definition remapped (crackIdx : nat) (remapFrom remapTo : Z) (labels : list Z) : list Z :=
  if decide (labels !! crackIdx = Some remapFrom)
  then <[crackIdx := remapTo]> labels
  else labels.

(** Whether the consistency pass remaps at a node seeing [sortedFields]. *)
Definition remapActive (sortedFields : list Z) : bool :=
  (length sortedFields =? 2)%nat && negb (fst (remapChoice sortedFields) =? -1).

(** The trace of a run without connected pairs: two steps per crack between
    the initialization and completion steps. *)
Fixpoint bareCrackSteps (sid : Z) (cracks : list Crack) : list SimulationStep :=
  match cracks with
  | [] => []
  | crack :: rest =>
      crackStep crack sid ∅ :: phaseStep crack (sid + 1) ∅ :: bareCrackSteps (sid + 2) rest
  end.

Definition bareTrace (cracks : list Crack) : list SimulationStep :=
  initStep 0 ∅ :: bareCrackSteps 1 cracks
    ++ [completeStep (1 + 2 * Z.of_nat (length cracks)) ∅].

(** The two sign patterns of [checkCrossing]. *)
Definition above_pattern (a : Areas) : Prop :=
  (area1 a < 0 /\ 0 <= area2 a /\ 0 <= area3 a /\ area4 a < 0)%Q.

Definition below_pattern (a : Areas) : Prop :=
  (0 <= area1 a /\ area2 a < 0 /\ area3 a < 0 /\ 0 <= area4 a)%Q.


(** Readings of a trace: the segment tests with their results, the labels
    a node reported, the remaps and the warnings. *)
Definition crossingTests (trace : list SimulationStep) : list (Z * Z * Z) :=
  omap (fun s => match description s, crossingResult s with
                 | Checking n p _, Some r => Some (n, p, r)
                 | _, _ => None
                 end) trace.

Definition nodeReports (trace : list SimulationStep) : list (Z * list Z) :=
  omap (fun s => match description s with
                 | NodeSees n fields => Some (n, fields)
                 | _ => None
                 end) trace.

Definition remaps (trace : list SimulationStep) : list (Z * Z * Z) :=
  omap (fun s => match description s with
                 | Normalizing n a b => Some (n, a, b)
                 | _ => None
                 end) trace.

Definition warnings (trace : list SimulationStep) : list SimulationStep :=
  List.filter isWarning trace.

(** The snapshot of the step that opens the consistency phase. *)
Definition afterCrossing (trace : list SimulationStep) : option (gmap (Z * Z) Z) :=
  currentFieldState <$>
    List.find (fun s => match description s with
                        | ConsistencyCheckPhase _ => true
                        | _ => false
                        end) trace.


(** ** The application shell ([App.tsx]) *)

Module App.

(** [setNodes(prev => prev.map(n => n.id === id ? { ...n, ...pos } : n))] *)
Definition handleUpdateNode (id : Z) (pos : Point) (nodes : list Node) : list Node :=
  map (fun n => if node_id n =? id then mkNode (node_id n) pos else n) nodes.

Definition handleUpdateParticle (id : Z) (pos : Point) (particles : list Particle)
  : list Particle :=
  map (fun p => if particle_id p =? id then mkParticle (particle_id p) pos else p) particles.

(** [newPoints[pointIdx] = pos] on a copy of the points.  At
    [pointIdx = length] the assignment appends; beyond that JavaScript
    leaves holes in the array, which [list Point] cannot hold: [None]. *)
Definition assignPoint (pointIdx : nat) (pos : Point) (pts : list Point)
  : option (list Point) :=
  if decide (pointIdx < length pts)%nat then Some (<[pointIdx := pos]> pts)
  else if decide (pointIdx = length pts) then Some (pts ++ [pos])
  else None.

Definition handleUpdateCrack (id : Z) (pointIdx : nat) (pos : Point) (cracks : list Crack)
  : option (list Crack) :=
  mapM (fun c => if negb (crack_id c =? id) then Some c
                 else mkCrack (crack_id c) <$> assignPoint pointIdx pos (points c)) cracks.

(** [newPoints.splice(start, 0, pos)]: a start beyond the end is the end. *)
Definition spliceIn {A} (start : nat) (a : A) (l : list A) : list A :=
  take start l ++ a :: drop start l.

Definition handleSplitCrack (id : Z) (segmentIdx : nat) (pos : Point) (cracks : list Crack)
  : list Crack :=
  map (fun c => if negb (crack_id c =? id) then c
                else mkCrack (crack_id c) (spliceIn (segmentIdx + 1) pos (points c))) cracks.

(** The effect that follows a new trace:
    [if (currentStepIndex >= simulationSteps.length)
       setCurrentStepIndex(Math.max(0, simulationSteps.length - 1))] *)
Definition clampStepIndex (len currentStepIndex : Z) : Z :=
  if len <=? currentStepIndex then Z.max 0 (len - 1) else currentStepIndex.

(** The skip-back and skip-forward buttons. *)
Definition skipBack (currentStepIndex : Z) : Z := Z.max 0 (currentStepIndex - 1).
Definition skipForward (len currentStepIndex : Z) : Z :=
  Z.min (len - 1) (currentStepIndex + 1).

(** One tick of the playback timer: the new index and whether playback
    goes on. *)
Definition tick (len prev : Z) (isPlaying : bool) : Z * bool :=
  if prev <? len - 1 then (prev + 1, isPlaying) else (prev, false).

(** [simulationSteps[currentStepIndex] || simulationSteps[0]] *)
Definition currentStep (simulationSteps : list SimulationStep) (currentStepIndex : Z)
  : option SimulationStep :=
  match (if 0 <=? currentStepIndex
         then simulationSteps !! Z.to_nat currentStepIndex else None) with
  | Some s => Some s
  | None => simulationSteps !! 0%nat
  end.

End App.

(** ** The canvas ([Visualizer.tsx]) *)

Module Visualizer.

Definition width : Q := 600.
Definition height : Q := 500.
Definition scale : Q := 40.
Definition margin : Q := 50.

Definition toScreen (p : Point) : Point :=
  mkPoint (x p * scale + margin) (height - (y p * scale + margin)).

Definition fromScreen (sx sy : Q) : Point :=
  mkPoint ((sx - margin) / scale) ((height - sy - margin) / scale).

(** The clamp of [handlePointerMove]:
    [point.x = Math.max(0, Math.min(12, point.x))], likewise [y] in [0,10]. *)
Definition clampPoint (point : Point) : Point :=
  mkPoint (Qmax 0 (Qmin 12 (x point))) (Qmax 0 (Qmin 10 (y point))).

(** The point handed to the update callbacks by a pointer move at the
    canvas position [(sx, sy)]. *)
Definition draggedTo (sx sy : Q) : Point := clampPoint (fromScreen sx sy).







End Visualizer.

(** ** Vocabulary of the further properties *)

Definition translate (t p : Point) : Point := mkPoint (x p + x t) (y p + y t).

(** The pairs of a node id and a particle id that the connectivity joins. *)
Definition connectedPair (particles : list Particle) (conn : Connectivity) (key : Z * Z)
  : Prop :=
  exists p ids, p ∈ particles /\ particleToNodes conn !! particle_id p = Some ids /\
                fst key ∈ ids /\ snd key = particle_id p.

(** The steps recorded while the cracks are processed. *)
Definition isCrackStep (s : SimulationStep) : Prop :=
  description s ≠ Initialization /\ description s ≠ ComputationComplete.

(** From [st] to [st']: the steps of [st] are kept and the appended ones
    are numbered on from [stepCounter st], with snapshots over the same
    pairs; the pairs of the accumulator are those of [st], and their label
    arrays differ at most in the slot [crackIdx], if one is given. *)
Definition extends (crackIdx : option nat) (st st' : RunState) : Prop :=
  exists new,
    steps st' = steps st ++ new /\
    stepCounter st' = stepCounter st + Z.of_nat (length new) /\
    (forall i s, new !! i = Some s ->
       stepId s = stepCounter st + Z.of_nat i /\
       dom (currentFieldState s) = dom (fieldAccumulator st) /\
       isCrackStep s) /\
    dom (fieldAccumulator st') = dom (fieldAccumulator st) /\
    forall idx key labels',
      crackIdx = Some idx ->
      fieldAccumulator st' !! key = Some labels' ->
      exists labels,
        fieldAccumulator st !! key = Some labels /\
        length labels' = length labels /\
        forall j, j ≠ idx -> labels' !! j = labels !! j.

(** Any failure is accepted: for properties of the runs that return. *)
Definition anyFailure : Failure -> Prop := fun _ => True.

(** * Properties *)

(** ** Geometry *)

Lemma Qltb_lt a b : Qltb a b = true <-> (a < b)%Q.
Proof.
  unfold Qltb. rewrite negb_true_iff, <- not_true_iff_false, Qle_bool_iff.
  split; [apply Qnot_le_lt | apply Qlt_not_le].
Qed.

Lemma Qgeb_ge a b : Qgeb a b = true <-> (b <= a)%Q.
Proof. unfold Qgeb. apply Qle_bool_iff. Qed.


Lemma Qgeb_lt a b : Qgeb a b = false <-> (a < b)%Q.
Proof.
  unfold Qgeb. rewrite <- not_true_iff_false, Qle_bool_iff.
  split; [apply Qnot_le_lt | apply Qlt_not_le].
Qed.

(** ** The logic of the recorder monad *)

Section Logic.
Context {S : Type} (F : Failure -> Prop).

Lemma wp_ret {A} (a : A) (Q : A -> S -> Prop) s : Q a s -> wp F (mret a) Q s.
Proof. done. Qed.

Lemma wp_bind {A B} (m : M S A) (k : A -> M S B) (Q : B -> S -> Prop) s :
  wp F m (fun a s' => wp F (k a) Q s') s -> wp F (m ≫= k) Q s.
Proof.
  unfold wp, mbind, M_bind. destruct (m s) as [[a s']|e]; done.
Qed.

Lemma wp_mono {A} (m : M S A) (Q Q' : A -> S -> Prop) s :
  wp F m Q s -> (forall a s', Q a s' -> Q' a s') -> wp F m Q' s.
Proof.
  unfold wp. destruct (m s) as [[a s']|e]; auto.
Qed.

Lemma wp_modify (f : S -> S) (Q : unit -> S -> Prop) s :
  Q tt (f s) -> wp F (modify f) Q s.
Proof. done. Qed.

Lemma wp_defined {A} (o : option A) (Q : A -> S -> Prop) s :
  match o with Some a => Q a s | None => F TypeError end ->
  wp F (defined o) Q s.
Proof. destruct o; done. Qed.

Lemma wp_forEach {A} (I : S -> Prop) (l : list A) (body : A -> M S unit) s :
  I s ->
  (forall a s', a ∈ l -> I s' -> wp F (body a) (fun _ => I) s') ->
  wp F (forEach l body) (fun _ => I) s.
Proof.
  revert s. induction l as [|a l IH]; intros s HI Hbody; simpl.
  - by apply wp_ret.
  - apply wp_bind. eapply wp_mono.
    + apply Hbody; [left | done].
    + intros [] s' HI'. apply IH; [done|].
      intros b s'' Hb. apply Hbody. by right.
Qed.

(** The invariant may follow the part of the list already visited. *)
Lemma wp_forEach_prefix {A} (I : list A -> S -> Prop) (l : list A)
    (body : A -> M S unit) s :
  I [] s ->
  (forall done a rest s', l = done ++ a :: rest -> I done s' ->
     wp F (body a) (fun _ => I (done ++ [a])) s') ->
  wp F (forEach l body) (fun _ => I l) s.
Proof.
  intros HI Hbody.
  cut (forall rest done s', l = done ++ rest -> I done s' ->
         wp F (forEach rest body) (fun _ => I l) s').
  { intros H. by apply (H l [] s). }
  induction rest as [|a rest IH]; intros done s' Heq HI'; simpl.
  - apply wp_ret. rewrite app_nil_r in Heq. by rewrite Heq.
  - apply wp_bind. eapply wp_mono.
    + by eapply Hbody.
    + intros [] s'' HI''. apply (IH (done ++ [a])); [|done].
      by rewrite <- app_assoc.
Qed.
End Logic.

Lemma wp_returns {S A} (m : M S A) (Q : A -> S -> Prop) s :
  wp never m Q s -> exists a s', m s = Returns (a, s') /\ Q a s'.
Proof.
  unfold wp. destruct (m s) as [[a s']|e]; [eauto | done].
Qed.

Lemma wp_weaken {S A} (F F' : Failure -> Prop) (m : M S A) (Q : A -> S -> Prop) s :
  wp F m Q s -> (forall e, F e -> F' e) -> wp F' m Q s.
Proof.
  unfold wp. destruct (m s) as [[a s']|e]; auto.
Qed.

(** ** The crossing classifier *)

Lemma checkCrossing_areas p n s e :
  areas (checkCrossing p n s e) =
  mkAreas (triangleArea p n s) (triangleArea p n e)
          (triangleArea s e p) (triangleArea s e n).
Proof. reflexivity. Qed.

Lemma checkCrossing_cases p n s e :
  let c := checkCrossing p n s e in
  (above_pattern (areas c) /\ result c = 2) \/
  (~ above_pattern (areas c) /\ below_pattern (areas c) /\ result c = 3) \/
  (~ above_pattern (areas c) /\ ~ below_pattern (areas c) /\ result c = 0).
Proof.
  unfold checkCrossing, above_pattern, below_pattern; simpl.
  destruct (Qltb (triangleArea p n s) 0 && Qgeb (triangleArea p n e) 0
            && Qgeb (triangleArea s e p) 0 && Qltb (triangleArea s e n) 0) eqn:E2.
  - left. rewrite !andb_true_iff, !Qltb_lt, !Qgeb_ge in E2. tauto.
  - right.
    assert (~ ((triangleArea p n s < 0)%Q /\ (0 <= triangleArea p n e)%Q /\
               (0 <= triangleArea s e p)%Q /\ (triangleArea s e n < 0)%Q)) as N2.
    { intros H. apply not_true_iff_false in E2. apply E2.
      rewrite !andb_true_iff, !Qltb_lt, !Qgeb_ge. tauto. }
    destruct (Qgeb (triangleArea p n s) 0 && Qltb (triangleArea p n e) 0
              && Qltb (triangleArea s e p) 0 && Qgeb (triangleArea s e n) 0) eqn:E3.
    + left. rewrite !andb_true_iff, !Qltb_lt, !Qgeb_ge in E3. tauto.
    + right. split; [done|]. split; [|done].
      intros H. apply not_true_iff_false in E3. apply E3.
      rewrite !andb_true_iff, !Qltb_lt, !Qgeb_ge. tauto.
Qed.

Lemma patterns_exclusive a : above_pattern a -> below_pattern a -> False.
Proof.
  intros (H1 & _) (H2 & _). exact (Qlt_not_le _ _ H1 H2).
Qed.

Lemma triangleArea_swap s e q : (triangleArea e s q == - triangleArea s e q)%Q.
Proof. unfold triangleArea. ring. Qed.


Lemma result_above p n s e :
  result (checkCrossing p n s e) = 2 <-> above_pattern (areas (checkCrossing p n s e)).
Proof.
  pose proof (patterns_exclusive (areas (checkCrossing p n s e))) as X.
  destruct (checkCrossing_cases p n s e) as [(H2 & E) | [(N2 & H3 & E) | (N2 & N3 & E)]];
    rewrite E; split; intros; (done || tauto).
Qed.

Lemma result_below p n s e :
  result (checkCrossing p n s e) = 3 <-> below_pattern (areas (checkCrossing p n s e)).
Proof.
  pose proof (patterns_exclusive (areas (checkCrossing p n s e))) as X.
  destruct (checkCrossing_cases p n s e) as [(H2 & E) | [(N2 & H3 & E) | (N2 & N3 & E)]];
    rewrite E; split; intros; (done || tauto).
Qed.

Lemma result_none p n s e :
  result (checkCrossing p n s e) = 0 <->
  ~ above_pattern (areas (checkCrossing p n s e)) /\
  ~ below_pattern (areas (checkCrossing p n s e)).
Proof.
  pose proof (patterns_exclusive (areas (checkCrossing p n s e))) as X.
  destruct (checkCrossing_cases p n s e) as [(H2 & E) | [(N2 & H3 & E) | (N2 & N3 & E)]];
    rewrite E; split; intros; (done || tauto).
Qed.

(** C8, as stated: reversing the segment would always exchange the results
    2 and 3.  It fails when the particle lies on the line of the segment:
    [area3 = 0] passes the test [area3 >= 0] of result 2, and the reversed
    segment has [area3 = 0] again, which fails the test [area3 < 0] of
    result 3. *)
Lemma reversal_fails_on_tie :
  ~ (forall p n s e : Point,
       (result (checkCrossing p n s e) = 2 -> result (checkCrossing p n e s) = 3) /\
       (result (checkCrossing p n s e) = 3 -> result (checkCrossing p n e s) = 2)).
Proof.
  intros H.
  destruct (H (pt 1 0) (pt 1 (-1)) (pt 0 0) (pt 2 0)) as [H2 _].
  specialize (H2 eq_refl). vm_compute in H2. discriminate.
Qed.

(** C8, amended.  Reversing the segment turns result 2 into result 3 when
    the particle is off the line of the segment ([area3 <> 0]), and result
    3 into result 2 when the node is off that line ([area4 <> 0]); on these
    two ties the reversed segment is classified 0. *)
Theorem checkCrossing_reversed (p n s e : Point) :
  (result (checkCrossing p n s e) = 2 -> ~ (triangleArea s e p == 0)%Q ->
   result (checkCrossing p n e s) = 3) /\
  (result (checkCrossing p n s e) = 3 -> ~ (triangleArea s e n == 0)%Q ->
   result (checkCrossing p n e s) = 2) /\
  (result (checkCrossing p n s e) = 2 -> (triangleArea s e p == 0)%Q ->
   result (checkCrossing p n e s) = 0) /\
  (result (checkCrossing p n s e) = 3 -> (triangleArea s e n == 0)%Q ->
   result (checkCrossing p n e s) = 0).
Proof.
  pose proof (triangleArea_swap s e p) as Sp.
  pose proof (triangleArea_swap s e n) as Sn.
  rewrite !result_above, !result_below, !result_none, !checkCrossing_areas.
  unfold above_pattern, below_pattern; cbn [area1 area2 area3 area4].
  split; [|split; [|split]]; intros (H1 & H2 & H3 & H4) H0.
  - assert (0 < triangleArea s e p)%Q as H3'.
    { destruct (Qle_lt_or_eq _ _ H3) as [L | L]; [done|]. by symmetry in L. }
    clear H0. repeat split; lra.
  - assert (0 < triangleArea s e n)%Q as H4'.
    { destruct (Qle_lt_or_eq _ _ H4) as [L | L]; [done|]. by symmetry in L. }
    clear H0. repeat split; lra.
  - split; [intros (G & _) | intros (_ & _ & G & _)]; lra.
  - split; [intros (_ & _ & _ & G) | intros (G & _)]; lra.
Qed.

Lemma checkCrossing_reversed_witness :
  result (checkCrossing (pt 5 6) (pt 2 2) (pt 9 5) (pt 1 5)) = 3 /\
  result (checkCrossing (pt 5 4) (pt 2 8) (pt 9 5) (pt 1 5)) = 2.
Proof.
  split.
  - apply (proj1 (checkCrossing_reversed (pt 5 6) (pt 2 2) (pt 1 5) (pt 9 5)));
      [reflexivity | vm_compute; discriminate].
  - apply (proj1 (proj2 (checkCrossing_reversed (pt 5 4) (pt 2 8) (pt 1 5) (pt 9 5))));
      [reflexivity | vm_compute; discriminate].
Defined.

(** ** Sorting and sets of labels *)

Lemma insertBy_perm {A} (lt : A -> A -> bool) a l : insertBy lt a l ≡ₚ a :: l.
Proof.
  induction l as [|b l IH]; simpl; [done|].
  destruct (lt b a); [|done].
  rewrite IH. apply Permutation_swap.
Qed.

Lemma stableSort_perm {A} (lt : A -> A -> bool) l : stableSort lt l ≡ₚ l.
Proof.
  induction l as [|a l IH]; simpl; [done|].
  rewrite insertBy_perm. by f_equiv.
Qed.

Lemma elem_of_stableSort {A} (lt : A -> A -> bool) l a : a ∈ stableSort lt l <-> a ∈ l.
Proof. by rewrite stableSort_perm. Qed.

Lemma length_stableSort {A} (lt : A -> A -> bool) l : length (stableSort lt l) = length l.
Proof. by rewrite stableSort_perm. Qed.

Lemma elem_of_closestNodes p nodes n : n ∈ closestNodes p nodes -> n ∈ nodes.
Proof.
  unfold closestNodes. intros H.
  apply (elem_of_stableSort (fun a b : Node => Qltb (distSq p a) (distSq p b))).
  exact (subseteq_take _ _ _ H).
Qed.

Lemma setAdd_elem v seen w : w ∈ setAdd v seen <-> w = v \/ w ∈ seen.
Proof.
  unfold setAdd. case_bool_decide as Hv.
  - split; [by right|]. intros [-> | H]; done.
  - rewrite elem_of_app, list_elem_of_singleton. tauto.
Qed.

Lemma setAdd_NoDup v seen : NoDup seen -> NoDup (setAdd v seen).
Proof.
  unfold setAdd. intros H. case_bool_decide as Hv; [done|].
  apply NoDup_app. split; [done|]. split; [|apply NoDup_singleton].
  intros w Hw Hw'. apply list_elem_of_singleton in Hw'. by subst.
Qed.

Lemma two_labels (a b : Z) (l : list Z) :
  NoDup l -> (forall v, v ∈ l <-> v = a \/ v = b) -> a ≠ b ->
  l = [a; b] \/ l = [b; a].
Proof.
  intros Hl Hv Hab.
  assert (l ≡ₚ [a; b]) as HP.
  { apply NoDup_Permutation; [done| |].
    - apply NoDup_cons. split; [by rewrite list_elem_of_singleton|apply NoDup_singleton].
    - intros v. rewrite Hv, elem_of_cons, list_elem_of_singleton. done. }
  symmetry in HP. by apply Permutation_length_2_inv in HP.
Qed.

Lemma three_labels (a b c : Z) (l : list Z) :
  NoDup l -> (forall v, v ∈ l <-> v = a \/ v = b \/ v = c) ->
  a ≠ b -> a ≠ c -> b ≠ c -> l ≡ₚ [a; b; c].
Proof.
  intros Hl Hv Hab Hac Hbc.
  apply NoDup_Permutation; [done| |].
  - repeat (apply NoDup_cons; split); rewrite ?elem_of_cons, ?list_elem_of_singleton;
      try apply NoDup_nil; try tauto.
    + intros [|[|]]; try done. by apply elem_of_nil in H.
    + intros [|]; try done. by apply elem_of_nil in H.
    + apply not_elem_of_nil.
  - intros v. rewrite Hv, !elem_of_cons, elem_of_nil. tauto.
Qed.

Lemma one_label (a : Z) (l : list Z) :
  NoDup l -> (forall v, v ∈ l -> v = a) -> (length l <= 1)%nat.
Proof.
  intros Hl Hv. destruct l as [|u [|w l]]; simpl; try lia.
  exfalso. apply NoDup_cons in Hl as [Hu _]. apply Hu.
  rewrite (Hv u) by left. rewrite (Hv w) by (right; left). left.
Qed.

(** ** Cancellation *)

Lemma countOf_nonneg v l : 0 <= countOf v l.
Proof. unfold countOf. lia. Qed.

Lemma cancellation_min f2 f3 :
  0 <= f2 -> 0 <= f3 ->
  cancellation f2 f3 = (f2 - Z.min f2 f3, f3 - Z.min f2 f3).
Proof.
  intros H2 H3. unfold cancellation.
  destruct (0 <? f2) eqn:E2; destruct (0 <? f3) eqn:E3; simpl; try done;
    f_equal; lia.
Qed.

Lemma rem2_odd g : 0 <= g -> (Z.rem g 2 =? 1) = Z.odd g.
Proof.
  intros Hg. rewrite Z.rem_mod_nonneg by lia. rewrite Zmod_odd.
  by destruct (Z.odd g).
Qed.

Lemma finalFieldOf_cases (g2 g3 : Z) :
  0 <= g2 -> 0 <= g3 ->
  finalFieldOf (g2, g3) =
  if Z.odd g2 then 2 else if Z.odd g3 then 3 else 1.
Proof.
  intros H2 H3. unfold finalFieldOf; simpl. by rewrite !rem2_odd.
Qed.

Lemma finalFieldOf_label counts : labelOK (finalFieldOf counts).
Proof.
  unfold finalFieldOf, labelOK.
  destruct (_ =? 1); [tauto|]. destruct (_ =? 1); tauto.
Qed.

(** ** The field encoder *)




(** ** The connectivity builder *)

Lemma wp_pushParticle F n p ps (Q : unit -> Connectivity -> Prop) c :
  nodeToParticles c !! node_id n = Some ps ->
  Q tt (mkConnectivity (particleToNodes c)
          (<[node_id n := ps ++ [particle_id p]]> (nodeToParticles c))) ->
  wp F (pushParticle n p) Q c.
Proof.
  intros H HQ. unfold wp, pushParticle, mbind, M_bind. rewrite H. exact HQ.
Qed.

Lemma registerNodes_ok nodes :
  wp never (forEach nodes registerNode)
     (fun _ c => particleToNodes c = ∅ /\
                 (forall n, n ∈ nodes -> is_Some (nodeToParticles c !! node_id n)) /\
                 (forall nid ps, nodeToParticles c !! nid = Some ps -> ps = []))
     (mkConnectivity ∅ ∅).
Proof.
  apply (wp_forEach_prefix never
    (fun done c => particleToNodes c = ∅ /\
                   (forall n, n ∈ done -> is_Some (nodeToParticles c !! node_id n)) /\
                   (forall nid ps, nodeToParticles c !! nid = Some ps -> ps = []))).
  - split; [done|]. split.
    + intros n Hn. by apply elem_of_nil in Hn.
    + intros nid ps H. simpl in H. by rewrite lookup_empty in H.
  - intros done n rest c _ (Hp & Hn & He). apply wp_modify. simpl.
    split; [done|]. split.
    + intros m Hm. apply elem_of_app in Hm as [Hm | Hm].
      * destruct (decide (node_id n = node_id m)) as [E | E].
        -- rewrite E, lookup_insert_eq. eauto.
        -- rewrite lookup_insert_ne by done. by apply Hn.
      * apply list_elem_of_singleton in Hm as ->. rewrite lookup_insert_eq. eauto.
    + intros nid ps H. destruct (decide (node_id n = nid)) as [E | E].
      * rewrite E, lookup_insert_eq in H. by injection H.
      * rewrite lookup_insert_ne in H by done. by eapply He.
Qed.

Lemma connectParticle_ok nodes done p c :
  connOK nodes done c ->
  wp never (connectParticle nodes p) (fun _ => connOK nodes (done ++ [p])) c.
Proof.
  intros [J1 J2 J3 J4 J5]. unfold connectParticle.
  apply wp_bind, wp_modify.
  set (connected := closestNodes p nodes).
  set (ptn1 := <[particle_id p := map node_id connected]> (particleToNodes c)).
  eapply wp_mono.
  - apply (wp_forEach never
      (fun c' => particleToNodes c' = ptn1 /\
                 (forall n, n ∈ nodes -> is_Some (nodeToParticles c' !! node_id n)) /\
                 (forall nid ps, nodeToParticles c' !! nid = Some ps ->
                    forall pid, pid ∈ ps ->
                    (exists q, q ∈ done ++ [p] /\ particle_id q = pid) /\
                    (NoDup (map particle_id (done ++ [p])) ->
                     exists ids, ptn1 !! pid = Some ids /\ nid ∈ ids)))).
    + simpl. split; [done|]. split; [done|].
      intros nid ps Hps pid Hpid. split.
      * destruct (J4 nid ps Hps pid Hpid) as (q & Hq & E).
        exists q. split; [|done]. apply elem_of_app. by left.
      * intros ND. rewrite map_app in ND. apply NoDup_app in ND as (ND & Hfresh & _).
        destruct (J5 ND nid ps Hps pid Hpid) as (ids & Hids & Hnid).
        exists ids. split; [|done]. unfold ptn1.
        rewrite lookup_insert_ne; [done|].
        intros E. destruct (J4 nid ps Hps pid Hpid) as (q & Hq & Eq).
        apply (Hfresh pid).
        -- rewrite <- Eq. apply list_elem_of_fmap. eauto.
        -- rewrite <- E. simpl. left.
    + intros n c' Hn (K1 & K2 & K3).
      assert (n ∈ nodes) as Hn' by by eapply elem_of_closestNodes.
      destruct (K2 n Hn') as [ps Hps].
      eapply wp_pushParticle; [exact Hps|]. simpl.
      split; [done|]. split.
      * intros m Hm. destruct (decide (node_id n = node_id m)) as [E | E].
        -- rewrite E, lookup_insert_eq. eauto.
        -- rewrite lookup_insert_ne by done. by apply K2.
      * intros nid ps' Hps' pid Hpid.
        destruct (decide (node_id n = nid)) as [E | E].
        -- rewrite E, lookup_insert_eq in Hps'. injection Hps' as <-.
           apply elem_of_app in Hpid as [Hpid | Hpid].
           ++ rewrite <- E. by eapply K3.
           ++ apply list_elem_of_singleton in Hpid as ->. split.
              ** exists p. split; [|done]. apply elem_of_app. right. left.
              ** intros _. exists (map node_id connected). split.
                 --- unfold ptn1. by rewrite lookup_insert_eq.
                 --- rewrite <- E. apply list_elem_of_fmap. eauto.
        -- rewrite lookup_insert_ne in Hps' by done. by eapply K3.
  - intros [] c' (K1 & K2 & K3). split.
    + intros q Hq. rewrite K1. unfold ptn1.
      destruct (decide (particle_id p = particle_id q)) as [E | E].
      * rewrite E, lookup_insert_eq. eauto.
      * rewrite lookup_insert_ne by done.
        apply elem_of_app in Hq as [Hq | Hq]; [by apply J1|].
        apply list_elem_of_singleton in Hq. by subst.
    + intros pid ids. rewrite K1. unfold ptn1. intros Hids nid Hnid.
      destruct (decide (particle_id p = pid)) as [E | E].
      * rewrite E, lookup_insert_eq in Hids. injection Hids as <-.
        apply list_elem_of_fmap in Hnid as (n & -> & Hn).
        exists n. split; [|done]. by eapply elem_of_closestNodes.
      * rewrite lookup_insert_ne in Hids by done. by eapply J2.
    + done.
    + intros nid ps Hps pid Hpid. by apply (K3 nid ps Hps pid Hpid).
    + intros ND nid ps Hps pid Hpid. rewrite K1.
      by apply (K3 nid ps Hps pid Hpid).
Qed.

Lemma buildConnectivity_ok nodes particles :
  exists conn,
    buildConnectivity nodes particles (mkConnectivity ∅ ∅) = Returns (tt, conn) /\
    connOK nodes particles conn.
Proof.
  assert (wp never (buildConnectivity nodes particles)
            (fun _ => connOK nodes particles) (mkConnectivity ∅ ∅)) as H.
  { unfold buildConnectivity. apply wp_bind.
    eapply wp_mono; [apply registerNodes_ok|].
    intros [] c (Hp & Hn & He).
    apply (wp_forEach_prefix never (fun done => connOK nodes done)).
    - split.
      + intros p Hp'. by apply elem_of_nil in Hp'.
      + intros pid ids H. by rewrite Hp, lookup_empty in H.
      + done.
      + intros nid ps H pid Hpid. rewrite (He nid ps H) in Hpid.
        by apply elem_of_nil in Hpid.
      + intros _ nid ps H pid Hpid. rewrite (He nid ps H) in Hpid.
        by apply elem_of_nil in Hpid.
    - intros done p rest c' _ HJ. by apply connectParticle_ok. }
  apply wp_returns in H as ([] & conn & E & H). eauto.
Qed.

(** ** Primitive actions of the recorder *)

Lemma wp_push F mk (Q : unit -> RunState -> Prop) st :
  Q tt (mkRun (steps st ++ [mk (stepCounter st)
                               (computeCombinedField (fieldAccumulator st))])
              (stepCounter st + 1) (fieldAccumulator st)) ->
  wp F (push mk) Q st.
Proof. done. Qed.

Lemma wp_readSlot F key crackIdx (Q : Z -> RunState -> Prop) st :
  match fieldAccumulator st !! key with
  | None => F TypeError
  | Some labels =>
      match labels !! crackIdx with
      | Some v => Q v st
      | None => F SlotOutOfRange
      end
  end ->
  wp F (readSlot key crackIdx) Q st.
Proof.
  unfold wp, readSlot. destruct (fieldAccumulator st !! key) as [labels|]; [|done].
  by destruct (labels !! crackIdx).
Qed.

Lemma wp_writeSlot F key crackIdx v (Q : unit -> RunState -> Prop) st :
  match fieldAccumulator st !! key with
  | None => F TypeError
  | Some labels =>
      if decide (crackIdx < length labels)%nat
      then Q tt (mkRun (steps st) (stepCounter st)
                   (<[key := <[crackIdx := v]> labels]> (fieldAccumulator st)))
      else F SlotOutOfRange
  end ->
  wp F (writeSlot key crackIdx v) Q st.
Proof.
  unfold wp, writeSlot. destruct (fieldAccumulator st !! key) as [labels|]; [|done].
  by destruct (decide (crackIdx < length labels)%nat).
Qed.

(** ** The segment loop *)

Lemma classification_short p n pts : (length pts < 2)%nat -> classification p n pts = [].
Proof.
  destruct pts as [|a [|b l]]; simpl; intros; try done. lia.
Qed.

Lemma classification_cons p n a b l :
  classification p n (a :: b :: l)
  = result (checkCrossing p n a b) :: classification p n (b :: l).
Proof. reflexivity. Qed.

Lemma countOf_cons v r l :
  countOf v (r :: l) = (if r =? v then 1 else 0) + countOf v l.
Proof.
  unfold countOf. simpl. destruct (Z.eq_dec r v) as [E | E].
  - apply Z.eqb_eq in E as ->. lia.
  - apply Z.eqb_neq in E as ->. lia.
Qed.

Lemma segmentLoop_spec F p n crack pts : forall i f2 f3 st,
  wp F (segmentLoop p n crack i pts f2 f3)
     (fun r st' =>
        r = (f2 + countOf 2 (classification p n pts),
             f3 + countOf 3 (classification p n pts)) /\
        fieldAccumulator st' = fieldAccumulator st /\
        exists new,
          steps st' = steps st ++ new /\
          Forall (fun s => currentFieldState s = computeCombinedField (fieldAccumulator st)
                           /\ highlightCrackId s = Some (crack_id crack)
                           /\ isCrossingStep s) new /\
          ((length pts < 2)%nat -> new = []))
     st.
Proof.
  induction pts as [|a pts IH]; intros i f2 f3 st.
  - simpl. apply wp_ret. split; [f_equal; unfold countOf; simpl; lia|].
    split; [done|]. exists []. by rewrite app_nil_r.
  - destruct pts as [|b l].
    + simpl. apply wp_ret. split; [f_equal; unfold countOf; simpl; lia|].
      split; [done|]. exists []. by rewrite app_nil_r.
    + cbn [segmentLoop]. apply wp_bind, wp_push.
      eapply wp_mono; [apply IH|]. cbn [steps fieldAccumulator stepCounter].
      intros r st' (-> & Hacc & new & Hsteps & Hnew & _).
      split; [|split; [done|]].
      * rewrite classification_cons, !countOf_cons.
        destruct (result (checkCrossing p n a b) =? 2);
          destruct (result (checkCrossing p n a b) =? 3); f_equal; lia.
      * eexists (_ :: new). split; [by rewrite Hsteps, <- app_assoc|].
        split; [|simpl; lia].
        apply Forall_cons. split; [|done]. done.
Qed.

(** ** One pair against one crack *)

Lemma final_of_short p n crack :
  shortCrack crack ->
  finalFieldOf (cancellation (0 + countOf 2 (classification p n (points crack)))
                             (0 + countOf 3 (classification p n (points crack)))) = 1.
Proof.
  intros H. by rewrite (classification_short p n _ H).
Qed.

Lemma processPair_spec F nodes crack crackIdx p nodeId n labels old st :
  findNode nodes nodeId = Some n ->
  fieldAccumulator st !! (node_id n, particle_id p) = Some labels ->
  labels !! crackIdx = Some old ->
  wp F (processPair nodes crack crackIdx p nodeId)
     (fun _ st' =>
        fieldAccumulator st'
        = <[(node_id n, particle_id p) :=
              <[crackIdx := finalFieldOf
                   (cancellation (countOf 2 (classification p n (points crack)))
                                 (countOf 3 (classification p n (points crack))))]> labels]>
            (fieldAccumulator st) /\
        exists new,
          steps st' = steps st ++ new /\
          Forall (fun s =>
                    (currentFieldState s = computeCombinedField (fieldAccumulator st) \/
                     currentFieldState s = computeCombinedField (fieldAccumulator st')) /\
                    highlightCrackId s = Some (crack_id crack)) new /\
          (shortCrack crack -> old = 1 -> new = []))
     st.
Proof.
  intros Hfind Hkey Hold. unfold processPair.
  apply wp_bind, wp_defined. rewrite Hfind.
  apply wp_bind. eapply wp_mono; [apply segmentLoop_spec|].
  intros counts st1 (-> & Hacc & new & Hsteps & Hnew & Hshort).
  cbn [fst snd]. rewrite !Z.add_0_l.
  set (final := finalFieldOf _).
  apply wp_bind, wp_readSlot. rewrite Hacc, Hkey, Hold.
  apply wp_bind, wp_writeSlot. rewrite Hacc, Hkey.
  pose proof (lookup_lt_Some _ _ _ Hold) as Hlt.
  destruct (decide (crackIdx < length labels)%nat) as [_|]; [|done].
  assert (Forall (fun s =>
            (currentFieldState s = computeCombinedField (fieldAccumulator st) \/
             currentFieldState s = computeCombinedField
               (<[(node_id n, particle_id p) := <[crackIdx := final]> labels]>
                  (fieldAccumulator st))) /\
            highlightCrackId s = Some (crack_id crack)) new) as Hnew'.
  { eapply Forall_impl; [exact Hnew|]. intros s (H1 & H2 & _). split; [by left|done]. }
  destruct (negb (old =? final) || negb (final =? 1)) eqn:Hemit.
  - apply wp_push. cbn [steps fieldAccumulator stepCounter].
    split; [done|]. eexists (new ++ [_]). split; [by rewrite Hsteps, app_assoc|].
    split.
    + apply Forall_app. split; [done|]. apply Forall_singleton. split; [by right|done].
    + intros Hs ->. exfalso. subst final.
      pose proof (final_of_short p n crack Hs) as E. rewrite !Z.add_0_l in E.
      rewrite E in Hemit. done.
  - apply wp_ret. cbn [steps fieldAccumulator stepCounter].
    split; [done|]. exists new. split; [done|]. split; [done|].
    intros Hs _. apply Hshort, Hs.
Qed.

(** C2.  For a pair whose slot exists, with [f2] and [f3] the numbers of
    segments of the crack classified 2 and 3: the cancellation subtracts
    [min(f2,f3)] from both counters when both are positive (and nothing
    otherwise), one of the resulting counters is 0, and the label written
    to the slot is 2 iff the resulting [f2] is odd, else 3 iff the
    resulting [f3] is odd, else 1. *)
Theorem cancellation_and_final_label nodes crack crackIdx p nodeId n labels st :
  findNode nodes nodeId = Some n ->
  fieldAccumulator st !! (node_id n, particle_id p) = Some labels ->
  (crackIdx < length labels)%nat ->
  let f2 := countOf 2 (classification p n (points crack)) in
  let f3 := countOf 3 (classification p n (points crack)) in
  let g2 := fst (cancellation f2 f3) in
  let g3 := snd (cancellation f2 f3) in
  (0 < f2 /\ 0 < f3 -> g2 = f2 - Z.min f2 f3 /\ g3 = f3 - Z.min f2 f3) /\
  (~ (0 < f2 /\ 0 < f3) -> g2 = f2 /\ g3 = f3) /\
  (g2 = 0 \/ g3 = 0) /\
  exists st' final,
    processPair nodes crack crackIdx p nodeId st = Returns (tt, st') /\
    labelAt (fieldAccumulator st') (node_id n, particle_id p) crackIdx = Some final /\
    (final = 2 <-> Z.odd g2 = true) /\
    (final = 3 <-> Z.odd g2 = false /\ Z.odd g3 = true) /\
    (final = 1 <-> Z.odd g2 = false /\ Z.odd g3 = false).
Proof.
  intros Hfind Hkey Hlt f2 f3 g2 g3.
  pose proof (countOf_nonneg 2 (classification p n (points crack))) as H2.
  pose proof (countOf_nonneg 3 (classification p n (points crack))) as H3.
  fold f2 in H2. fold f3 in H3.
  assert (g2 = f2 - Z.min f2 f3 /\ g3 = f3 - Z.min f2 f3) as [E2 E3].
  { subst g2 g3. by rewrite cancellation_min. }
  split; [done|]. split; [lia|]. split; [lia|].
  destruct (lookup_lt_is_Some_2 labels crackIdx Hlt) as [old Hold].
  pose proof (processPair_spec never nodes crack crackIdx p nodeId n labels old st
                Hfind Hkey Hold) as H.
  apply wp_returns in H as ([] & st' & Hrun & Hacc & _).
  exists st', (finalFieldOf (cancellation f2 f3)).
  split; [done|]. split.
  { unfold labelAt. rewrite Hacc, lookup_insert_eq. simpl.
    by apply list_lookup_insert_eq. }
  rewrite (surjective_pairing (cancellation f2 f3)).
  fold g2 g3. rewrite finalFieldOf_cases by lia.
  destruct (Z.odd g2); destruct (Z.odd g3); repeat split; intros; try done; lia.
Qed.

Lemma cancellation_and_final_label_witness :
  exists st',
    processPair case1_nodes (mkCrack 0 [pt 1 5; pt 9 5]) 0
      (mkParticle 1 (pt 5 6)) 0 (mkRun [] 0 {[ (0, 1) := [1] ]})
    = Returns (tt, st') /\
    labelAt (fieldAccumulator st') (0, 1) 0 = Some 2.
Proof.
  destruct (cancellation_and_final_label case1_nodes (mkCrack 0 [pt 1 5; pt 9 5]) 0%nat
              (mkParticle 1 (pt 5 6)) 0 (mkNode 0 (pt 2 2)) [1]
              (mkRun [] 0 {[ (0, 1) := [1] ]}))
    as (_ & _ & _ & st' & final & Hrun & Hlabel & H2 & _).
  - reflexivity.
  - reflexivity.
  - simpl. lia.
  - exists st'. split; [exact Hrun|].
    cbn [node_id particle_id] in Hlabel.
    rewrite Hlabel. f_equal. apply H2. reflexivity.
Defined.

(** ** The consistency pass at one node *)

Lemma sees_nil acc n crackIdx v : ~ sees acc n [] crackIdx v.
Proof. intros (pid & H & _). by apply elem_of_nil in H. Qed.

Lemma sees_cons acc n pid pids crackIdx v :
  sees acc n (pid :: pids) crackIdx v <->
  labelAt acc (node_id n, pid) crackIdx = Some v \/ sees acc n pids crackIdx v.
Proof.
  unfold sees. split.
  - intros (q & Hq & Hv). apply elem_of_cons in Hq as [-> | Hq]; eauto.
  - intros [Hv | (q & Hq & Hv)].
    + exists pid. split; [left | done].
    + exists q. split; [by right | done].
Qed.

Lemma collectSeen_spec F n crackIdx pids : forall seen0 st,
  slotsUsable F (fieldAccumulator st) n pids crackIdx ->
  NoDup seen0 ->
  wp F (collectSeen n crackIdx pids seen0)
     (fun seen st' =>
        st' = st /\ NoDup seen /\
        (forall v, v ∈ seen <-> v ∈ seen0 \/ sees (fieldAccumulator st) n pids crackIdx v) /\
        slotsPresent (fieldAccumulator st) n pids crackIdx)
     st.
Proof.
  induction pids as [|pid pids IH]; intros seen0 st Huse Hnd; simpl.
  - apply wp_ret. split; [done|]. split; [done|]. split.
    + intros v. split; [by left|]. intros [H | H]; [done|]. by apply sees_nil in H.
    + intros pid H. by apply elem_of_nil in H.
  - apply wp_bind, wp_readSlot.
    pose proof (Huse pid (list_elem_of_here _ _)) as Hpid.
    destruct (fieldAccumulator st !! (node_id n, pid)) as [labels|] eqn:Hkey; [|done].
    destruct (lookup_lt_is_Some_2 labels crackIdx Hpid) as [val Hval]. rewrite Hval.
    assert (labelAt (fieldAccumulator st) (node_id n, pid) crackIdx = Some val) as Hlab.
    { unfold labelAt. by rewrite Hkey. }
    eapply wp_mono.
    + apply IH; [|by apply setAdd_NoDup].
      intros q Hq. apply Huse. by right.
    + intros seen st' (-> & Hnd' & Hseen & Hpres).
      split; [done|]. split; [done|]. split.
      * intros v. rewrite Hseen, setAdd_elem, sees_cons, Hlab.
        split; [|intros [|[|]]; auto; left; left; congruence].
        intros [[->|]|]; auto.
      * intros q Hq. apply elem_of_cons in Hq as [-> | Hq]; [by rewrite Hlab|].
        by apply Hpres.
Qed.

Lemma remapped_length crackIdx a b labels :
  length (remapped crackIdx a b labels) = length labels.
Proof.
  unfold remapped. case_decide; [apply length_insert | done].
Qed.

Lemma remapped_idem crackIdx a b labels :
  a ≠ b -> remapped crackIdx a b (remapped crackIdx a b labels) = remapped crackIdx a b labels.
Proof.
  intros Hab. unfold remapped.
  destruct (decide (labels !! crackIdx = Some a)) as [H | H].
  - rewrite decide_False; [done|].
    rewrite list_lookup_insert_eq by (by eapply lookup_lt_Some). congruence.
  - by rewrite decide_False.
Qed.

Lemma remapPair_spec F n crackIdx a b pid st :
  match fieldAccumulator st !! (node_id n, pid) with
  | None => F TypeError
  | Some labels => (crackIdx < length labels)%nat
  end ->
  wp F (remapPair n crackIdx a b pid)
     (fun _ st' =>
        steps st' = steps st /\ stepCounter st' = stepCounter st /\
        fieldAccumulator st' !! (node_id n, pid)
        = remapped crackIdx a b <$> fieldAccumulator st !! (node_id n, pid) /\
        forall key, key ≠ (node_id n, pid) ->
                    fieldAccumulator st' !! key = fieldAccumulator st !! key)
     st.
Proof.
  intros Huse. unfold remapPair. apply wp_bind, wp_readSlot.
  destruct (fieldAccumulator st !! (node_id n, pid)) as [labels|] eqn:Hkey; [|done].
  destruct (lookup_lt_is_Some_2 labels crackIdx Huse) as [val Hval]. rewrite Hval.
  destruct (val =? a) eqn:E.
  - apply Z.eqb_eq in E as ->. apply wp_writeSlot. rewrite Hkey.
    rewrite decide_True by done. cbn [steps stepCounter fieldAccumulator].
    split; [done|]. split; [done|]. split.
    + rewrite lookup_insert_eq. simpl. unfold remapped. by rewrite decide_True.
    + intros key Hne. by rewrite lookup_insert_ne.
  - apply Z.eqb_neq in E. apply wp_ret.
    split; [done|]. split; [done|]. split; [|done].
    rewrite Hkey. simpl. unfold remapped. rewrite decide_False; [done|]. congruence.
Qed.

Lemma remapLoop_spec F n crackIdx a b pids st :
  a ≠ b ->
  slotsUsable F (fieldAccumulator st) n pids crackIdx ->
  wp F (forEach pids (remapPair n crackIdx a b))
     (fun _ st' =>
        steps st' = steps st /\ stepCounter st' = stepCounter st /\
        (forall pid, pid ∈ pids ->
           fieldAccumulator st' !! (node_id n, pid)
           = remapped crackIdx a b <$> fieldAccumulator st !! (node_id n, pid)) /\
        (forall key, (forall pid, pid ∈ pids -> key ≠ (node_id n, pid)) ->
           fieldAccumulator st' !! key = fieldAccumulator st !! key))
     st.
Proof.
  intros Hab Huse.
  apply (wp_forEach_prefix F
    (fun done st' =>
       steps st' = steps st /\ stepCounter st' = stepCounter st /\
       (forall pid, pid ∈ done ->
          fieldAccumulator st' !! (node_id n, pid)
          = remapped crackIdx a b <$> fieldAccumulator st !! (node_id n, pid)) /\
       (forall key, (forall pid, pid ∈ done -> key ≠ (node_id n, pid)) ->
          fieldAccumulator st' !! key = fieldAccumulator st !! key))).
  - split; [done|]. split; [done|]. split; [|done].
    intros pid H. by apply elem_of_nil in H.
  - intros done pid rest st' Hsplit (Hs & Hc & Hin & Hout).
    assert (pid ∈ pids) as Hpid.
    { rewrite Hsplit. apply elem_of_app. right. left. }
    assert (fieldAccumulator st' !! (node_id n, pid)
            = remapped crackIdx a b <$> fieldAccumulator st !! (node_id n, pid) \/
            fieldAccumulator st' !! (node_id n, pid)
            = fieldAccumulator st !! (node_id n, pid)) as Hcur.
    { destruct (decide (pid ∈ done)) as [Hd | Hd]; [left; by apply Hin|].
      right. apply Hout. intros q Hq E. injection E as ->. done. }
    eapply wp_mono.
    + apply remapPair_spec. specialize (Huse pid Hpid).
      destruct Hcur as [-> | ->];
        destruct (fieldAccumulator st !! (node_id n, pid)); simpl; try done.
      by rewrite remapped_length.
    + intros [] st'' (Hs' & Hc' & Hat & Hother).
      split; [congruence|]. split; [congruence|]. split.
      * intros q Hq. destruct (decide (q = pid)) as [-> | Hne].
        -- rewrite Hat. destruct Hcur as [-> | ->]; [|done].
           destruct (fieldAccumulator st !! (node_id n, pid)); simpl; [|done].
           by rewrite remapped_idem.
        -- rewrite Hother by congruence. apply Hin.
           apply elem_of_app in Hq as [Hq | Hq]; [done|].
           by apply list_elem_of_singleton in Hq.
      * intros key Hkey. rewrite Hother.
        -- apply Hout. intros q Hq. apply Hkey, elem_of_app. by left.
        -- apply Hkey, elem_of_app. right. left.
Qed.

Lemma remapChoice_cases l :
  remapChoice l = (1, 3) \/ remapChoice l = (1, 2) \/ remapChoice l = (-1, -1).
Proof.
  unfold remapChoice. destruct (_ && _); [by left|]. destruct (_ && _); auto.
Qed.

Lemma consistencyNode_spec F conn crackIdx n pids st :
  nodeToParticles conn !! node_id n = Some pids ->
  pids ≠ [] ->
  slotsUsable F (fieldAccumulator st) n pids crackIdx ->
  wp F (consistencyNode conn crackIdx n)
     (fun _ st' =>
        exists seen,
          NoDup seen /\
          (forall v, v ∈ seen <-> sees (fieldAccumulator st) n pids crackIdx v) /\
          slotsPresent (fieldAccumulator st) n pids crackIdx /\
          let sorted := sortNumeric seen in
          let a := fst (remapChoice sorted) in
          let b := snd (remapChoice sorted) in
          let acc := fieldAccumulator st in
          let acc' := fieldAccumulator st' in
          if remapActive sorted
          then
            (forall pid, pid ∈ pids ->
               acc' !! (node_id n, pid) = remapped crackIdx a b <$> acc !! (node_id n, pid)) /\
            (forall key, (forall pid, pid ∈ pids -> key ≠ (node_id n, pid)) ->
               acc' !! key = acc !! key) /\
            steps st' = steps st ++
              [seesStep n sorted (stepCounter st) (computeCombinedField acc);
               normalizeStep n sorted a b (stepCounter st + 1) (computeCombinedField acc')]
          else
            acc' = acc /\
            steps st' = steps st ++
              seesStep n sorted (stepCounter st) (computeCombinedField acc)
              :: (if (length sorted =? 3)%nat
                  then [warningStep n sorted (stepCounter st + 1) (computeCombinedField acc)]
                  else []))
     st.
Proof.
  intros Hconn Hne Huse. unfold consistencyNode.
  apply wp_bind, wp_defined. rewrite Hconn.
  destruct pids as [|pid0 pids0] eqn:Epids; [done|].
  change (length (pid0 :: pids0) =? 0)%nat with false. cbv iota. rewrite <- Epids in *.
  apply wp_bind. eapply wp_mono; [by apply collectSeen_spec, NoDup_nil|].
  intros seen st1 (-> & Hnd & Hseen & Hpres).
  assert (forall v, v ∈ seen <-> sees (fieldAccumulator st) n pids crackIdx v) as Hseen'.
  { intros v. rewrite Hseen. split; [intros [H|H]; [by apply elem_of_nil in H|done]|auto]. }
  set (sorted := sortNumeric seen).
  apply wp_bind, wp_push. cbn [steps stepCounter fieldAccumulator].
  destruct (length sorted =? 3)%nat eqn:E3.
  - assert ((length sorted =? 2)%nat = false) as E2.
    { apply Nat.eqb_eq in E3. apply Nat.eqb_neq. lia. }
    rewrite E2.
    apply wp_bind, wp_push. cbn [steps stepCounter fieldAccumulator].
    apply wp_ret. cbn [steps stepCounter fieldAccumulator].
    exists seen. do 3 (split; [done|]). cbv zeta. fold sorted.
    unfold remapActive. rewrite E2, E3. cbn [andb].
    split; [done|]. by rewrite <- app_assoc.
  - apply wp_bind, wp_ret.
    destruct (length sorted =? 2)%nat eqn:E2.
    + destruct (negb (fst (remapChoice sorted) =? -1)) eqn:Eact.
      * assert (fst (remapChoice sorted) ≠ snd (remapChoice sorted)) as Hab.
        { destruct (remapChoice_cases sorted) as [-> | [-> | E]]; simpl; try lia.
          rewrite E in Eact. done. }
        apply wp_bind. eapply wp_mono; [by apply remapLoop_spec|].
        cbn [steps stepCounter fieldAccumulator].
        intros [] st2 (Hs & Hc & Hin & Hout).
        apply wp_push. cbn [steps stepCounter fieldAccumulator].
        exists seen. do 3 (split; [done|]). cbv zeta. fold sorted.
        unfold remapActive. rewrite E2, Eact. cbn [andb].
        split; [done|]. split; [done|].
        rewrite Hs, Hc, <- app_assoc. done.
      * apply wp_ret. cbn [steps stepCounter fieldAccumulator].
        exists seen. do 3 (split; [done|]). cbv zeta. fold sorted.
        unfold remapActive. rewrite E2, E3, Eact. done.
    + apply wp_ret. cbn [steps stepCounter fieldAccumulator].
      exists seen. do 3 (split; [done|]). cbv zeta. fold sorted.
      unfold remapActive. rewrite E2, E3. done.
Qed.

Lemma sort_three (l : list Z) :
  NoDup l -> (forall v, v ∈ l <-> v = 1 \/ v = 2 \/ v = 3) ->
  sortNumeric l = [1; 2; 3].
Proof.
  intros Hnd Hv.
  pose proof (three_labels 1 2 3 l Hnd Hv) as HP.
  pose proof (Permutation_length (HP ltac:(lia) ltac:(lia) ltac:(lia))) as Hlen.
  destruct l as [|a [|b [|c [|d l]]]]; simpl in Hlen; try lia.
  assert (a ∈ [a; b; c]) as Ha by left.
  assert (b ∈ [a; b; c]) as Hb by (right; left).
  assert (c ∈ [a; b; c]) as Hc by (right; right; left).
  apply Hv in Ha, Hb, Hc.
  destruct Ha as [-> | [-> | ->]]; destruct Hb as [-> | [-> | ->]];
    destruct Hc as [-> | [-> | ->]];
    first [ reflexivity
          | exfalso; revert Hnd; apply (proj1 (bool_decide_eq_false _)); reflexivity ].
Qed.

Lemma slotsPresent_usable F acc n pids crackIdx :
  slotsPresent acc n pids crackIdx -> slotsUsable F acc n pids crackIdx.
Proof.
  intros H pid Hpid. destruct (H pid Hpid) as [v Hv]. unfold labelAt in Hv.
  destruct (acc !! (node_id n, pid)) as [labels|]; [|done].
  simpl in Hv. by eapply lookup_lt_Some.
Qed.

Lemma labelAt_remapped acc acc' key crackIdx a b v :
  acc' !! key = remapped crackIdx a b <$> acc !! key ->
  labelAt acc key crackIdx = Some v ->
  (v = a -> labelAt acc' key crackIdx = Some b) /\
  (v ≠ a -> acc' !! key = acc !! key).
Proof.
  unfold labelAt. intros -> Hv.
  destruct (acc !! key) as [labels|]; [|done]. simpl in *.
  unfold remapped. split.
  - intros ->. rewrite decide_True by done.
    apply list_lookup_insert_eq. by eapply lookup_lt_Some.
  - intros Hne. rewrite decide_False; [done|]. congruence.
Qed.

(** C3.  At a node with at least one connected particle, each with a slot
    for the crack: when the labels seen are exactly {1,2}, every pair of
    the node with label 1 gets label 3 and the pairs with label 2 keep
    their label arrays; when they are exactly {1,3}, every pair with label
    1 gets label 2 and the pairs with label 3 are unchanged; when they are
    exactly {2,3}, the accumulator is unchanged. *)
Theorem consistency_remap conn crackIdx n pids st :
  nodeToParticles conn !! node_id n = Some pids ->
  pids ≠ [] ->
  slotsPresent (fieldAccumulator st) n pids crackIdx ->
  exists st',
    consistencyNode conn crackIdx n st = Returns (tt, st') /\
    let acc := fieldAccumulator st in
    let acc' := fieldAccumulator st' in
    ((forall v, sees acc n pids crackIdx v <-> v = 1 \/ v = 2) ->
     forall pid, pid ∈ pids ->
       (labelAt acc (node_id n, pid) crackIdx = Some 1 ->
        labelAt acc' (node_id n, pid) crackIdx = Some 3) /\
       (labelAt acc (node_id n, pid) crackIdx = Some 2 ->
        acc' !! (node_id n, pid) = acc !! (node_id n, pid))) /\
    ((forall v, sees acc n pids crackIdx v <-> v = 1 \/ v = 3) ->
     forall pid, pid ∈ pids ->
       (labelAt acc (node_id n, pid) crackIdx = Some 1 ->
        labelAt acc' (node_id n, pid) crackIdx = Some 2) /\
       (labelAt acc (node_id n, pid) crackIdx = Some 3 ->
        acc' !! (node_id n, pid) = acc !! (node_id n, pid))) /\
    ((forall v, sees acc n pids crackIdx v <-> v = 2 \/ v = 3) -> acc' = acc).
Proof.
  intros Hconn Hne Hpres.
  pose proof (consistencyNode_spec never conn crackIdx n pids st Hconn Hne
                (slotsPresent_usable _ _ _ _ _ Hpres)) as H.
  apply wp_returns in H as ([] & st' & Hrun & seen & Hnd & Hseen & _ & H).
  exists st'. split; [done|]. cbv zeta in *.
  split; [|split]; intros Hset.
  - assert (sortNumeric seen = [1; 2]) as E.
    { destruct (two_labels 1 2 seen Hnd) as [-> | ->]; try done.
      intros v. by rewrite Hseen. }
    rewrite E in H. change (remapActive [1; 2]) with true in H.
    change (remapChoice [1; 2]) with (1, 3) in H. cbn [fst snd] in H.
    destruct H as (Hin & _ & _). intros pid Hpid. split; intros Hv.
    + by apply (labelAt_remapped _ _ _ _ 1 3 1 (Hin pid Hpid) Hv).
    + by apply (labelAt_remapped _ _ _ _ 1 3 2 (Hin pid Hpid) Hv).
  - assert (sortNumeric seen = [1; 3]) as E.
    { destruct (two_labels 1 3 seen Hnd) as [-> | ->]; try done.
      intros v. by rewrite Hseen. }
    rewrite E in H. change (remapActive [1; 3]) with true in H.
    change (remapChoice [1; 3]) with (1, 2) in H. cbn [fst snd] in H.
    destruct H as (Hin & _ & _). intros pid Hpid. split; intros Hv.
    + by apply (labelAt_remapped _ _ _ _ 1 2 1 (Hin pid Hpid) Hv).
    + by apply (labelAt_remapped _ _ _ _ 1 2 3 (Hin pid Hpid) Hv).
  - assert (sortNumeric seen = [2; 3]) as E.
    { destruct (two_labels 2 3 seen Hnd) as [-> | ->]; try done.
      intros v. by rewrite Hseen. }
    rewrite E in H. change (remapActive [2; 3]) with false in H.
    by destruct H as [-> _].
Qed.

(** C4.  At a node whose connected particles show exactly the labels
    {1,2,3} for the crack, the consistency pass appends the report step
    and one warning step, both with the snapshot of the unchanged
    accumulator, and leaves the accumulator as it was. *)
Theorem three_way_conflict conn crackIdx n pids st :
  nodeToParticles conn !! node_id n = Some pids ->
  slotsPresent (fieldAccumulator st) n pids crackIdx ->
  (forall v, sees (fieldAccumulator st) n pids crackIdx v <-> v = 1 \/ v = 2 \/ v = 3) ->
  exists st' new,
    consistencyNode conn crackIdx n st = Returns (tt, st') /\
    fieldAccumulator st' = fieldAccumulator st /\
    steps st' = steps st ++ new /\
    new = [seesStep n [1; 2; 3] (stepCounter st)
             (computeCombinedField (fieldAccumulator st));
           warningStep n [1; 2; 3] (stepCounter st + 1)
             (computeCombinedField (fieldAccumulator st))] /\
    length (filter (fun s => isWarning s = true) new) = 1%nat /\
    Forall (fun s => currentFieldState s = computeCombinedField (fieldAccumulator st)) new.
Proof.
  intros Hconn Hpres Hset.
  assert (pids ≠ []) as Hne.
  { destruct (proj2 (Hset 1)) as (pid & Hpid & _); [by left|].
    intros E. rewrite E in Hpid. by apply elem_of_nil in Hpid. }
  pose proof (consistencyNode_spec never conn crackIdx n pids st Hconn Hne
                (slotsPresent_usable _ _ _ _ _ Hpres)) as H.
  apply wp_returns in H as ([] & st' & Hrun & seen & Hnd & Hseen & _ & H).
  assert (sortNumeric seen = [1; 2; 3]) as E.
  { apply sort_three; [done|]. intros v. by rewrite Hseen. }
  cbv zeta in H. rewrite E in H. change (remapActive [1; 2; 3]) with false in H.
  destruct H as [Hacc Hsteps]. simpl in Hsteps.
  eexists st', _. split; [done|]. split; [done|]. split; [exact Hsteps|].
  split; [done|]. split; [done|]. by repeat constructor.
Qed.

(** ** The invariant of a run *)

Lemma findNode_known nodes nodeId :
  (exists n0, n0 ∈ nodes /\ node_id n0 = nodeId) ->
  exists n, findNode nodes nodeId = Some n /\ node_id n = nodeId.
Proof.
  intros (n0 & Hin & Hid). unfold findNode.
  destruct (find _ nodes) as [n|] eqn:E.
  - apply find_some in E as [_ E]. apply Z.eqb_eq in E. eauto.
  - apply list_elem_of_In in Hin.
    pose proof (find_none _ _ E n0 Hin) as H. simpl in H.
    apply Z.eqb_neq in H. done.
Qed.

Lemma slotsOK_write cracks acc key labels crackIdx v :
  slotsOK cracks acc ->
  acc !! key = Some labels ->
  labelOK v ->
  (forall c, cracks !! crackIdx = Some c -> shortCrack c -> v = 1) ->
  slotsOK cracks (<[key := <[crackIdx := v]> labels]> acc).
Proof.
  intros Hok Hkey Hv Hshort key' labels' H.
  destruct (decide (key = key')) as [<- | Hne].
  - rewrite lookup_insert_eq in H. injection H as <-.
    destruct (Hok key labels Hkey) as (Hlen & Hall & Hone).
    split; [by rewrite length_insert|]. split.
    + destruct (decide (crackIdx < length labels)%nat) as [Hlt | Hge].
      * by apply Forall_insert.
      * by rewrite list_insert_ge by lia.
    + intros i c Hc Hs. destruct (decide (i = crackIdx)) as [-> | Hi].
      * rewrite list_lookup_insert_eq.
        -- f_equal. by eapply Hshort.
        -- rewrite Hlen. by eapply lookup_lt_Some.
      * rewrite list_lookup_insert_ne by done. by eapply Hone.
  - rewrite lookup_insert_ne in H by done. by eapply Hok.
Qed.

Lemma runOK_extend particles cracks conn first st st' new :
  runOK particles cracks conn first st ->
  (forall key, is_Some (fieldAccumulator st !! key) ->
               is_Some (fieldAccumulator st' !! key)) ->
  slotsOK cracks (fieldAccumulator st') ->
  steps st' = steps st ++ new ->
  Forall (stepOK cracks) new ->
  runOK particles cracks conn first st'.
Proof.
  intros (Hdom & Hslots & Hsteps & Hhead) Hkeys Hslots' Hnew Hok.
  split; [|split; [done|split]].
  - intros p ids nid Hp Hids Hnid. by eapply Hkeys, Hdom.
  - rewrite Hnew. by apply Forall_app.
  - rewrite Hnew. destruct (steps st); [done|]. done.
Qed.

Lemma stepOK_plain cracks acc s :
  slotsOK cracks acc ->
  currentFieldState s = computeCombinedField acc ->
  ~ isCrossingStep s ->
  stepOK cracks s.
Proof.
  intros Hok Hsnap Hno. split; [eauto | done].
Qed.

Lemma runOK_push F particles cracks conn first mk st :
  runOK particles cracks conn first st ->
  (forall sid snap, currentFieldState (mk sid snap) = snap) ->
  (forall sid snap, ~ isCrossingStep (mk sid snap)) ->
  wp F (push mk) (fun _ => runOK particles cracks conn first) st.
Proof.
  intros Hok Hsnap Hno. apply wp_push.
  eapply runOK_extend; [exact Hok|done|apply Hok|done|].
  apply Forall_singleton. eapply stepOK_plain; [apply Hok| |apply Hno].
  by rewrite Hsnap.
Qed.

Lemma processPair_inv F nodes particles cracks conn first crack crackIdx p nodeId ids st :
  connOK nodes particles conn ->
  cracks !! crackIdx = Some crack ->
  p ∈ particles ->
  particleToNodes conn !! particle_id p = Some ids ->
  nodeId ∈ ids ->
  runOK particles cracks conn first st ->
  wp F (processPair nodes crack crackIdx p nodeId)
     (fun _ => runOK particles cracks conn first) st.
Proof.
  intros Hconn Hcrack Hp Hids Hnid Hok.
  destruct (findNode_known nodes nodeId) as (n & Hfind & Hn).
  { by eapply (conn_nodes_known _ _ _ Hconn). }
  destruct Hok as (Hdom & Hslots & Hsteps & Hhead).
  destruct (Hdom p ids nodeId Hp Hids Hnid) as [labels Hkey].
  rewrite <- Hn in Hkey.
  destruct (Hslots _ _ Hkey) as (Hlen & Hall & Hone).
  destruct (lookup_lt_is_Some_2 labels crackIdx) as [old Hold].
  { rewrite Hlen. by eapply lookup_lt_Some. }
  eapply wp_mono; [by eapply processPair_spec|].
  intros [] st' (Hacc & new & Hnew & Hall' & Hshort).
  assert (slotsOK cracks (fieldAccumulator st')) as Hslots'.
  { rewrite Hacc. apply slotsOK_write; [done|done|apply finalFieldOf_label|].
    intros c Hc Hs. assert (c = crack) as -> by congruence.
    pose proof (final_of_short p n crack Hs) as E. by rewrite !Z.add_0_l in E. }
  eapply (runOK_extend _ _ _ _ st st' new); [done| |done|done|].
  - intros key Hsome. rewrite Hacc.
    destruct (decide ((node_id n, particle_id p) = key)) as [<- | Hne].
    + rewrite lookup_insert_eq. eauto.
    + by rewrite lookup_insert_ne.
  - apply Forall_forall. intros s Hs.
    rewrite Forall_forall in Hall'. destruct (Hall' s Hs) as (Hsnap & Hid).
    split.
    + destruct Hsnap as [Hsnap | Hsnap]; eauto.
    + intros _. exists crack. split; [by eapply list_elem_of_lookup_2|].
      split; [|done]. intros Hsc.
      assert (old = 1) as ->.
      { pose proof (Hone crackIdx crack Hcrack Hsc). congruence. }
      rewrite (Hshort Hsc eq_refl) in Hs. by apply elem_of_nil in Hs.
Qed.

Lemma crossingPhase_inv F nodes particles cracks conn first crack crackIdx st :
  connOK nodes particles conn ->
  cracks !! crackIdx = Some crack ->
  runOK particles cracks conn first st ->
  wp F (crossingPhase nodes particles conn crack crackIdx)
     (fun _ => runOK particles cracks conn first) st.
Proof.
  intros Hconn Hcrack Hok. unfold crossingPhase.
  apply wp_forEach; [done|].
  intros p st1 Hp Hok1.
  destruct (conn_particle _ _ _ Hconn p Hp) as [ids Hids].
  apply wp_bind, wp_defined. rewrite Hids.
  apply wp_forEach; [done|].
  intros nodeId st2 Hnid Hok2. by eapply processPair_inv.
Qed.

Lemma slotsUsable_run nodes particles cracks conn first crack crackIdx n pids st :
  connOK nodes particles conn ->
  cracks !! crackIdx = Some crack ->
  nodeToParticles conn !! node_id n = Some pids ->
  runOK particles cracks conn first st ->
  slotsUsable (mayFail particles) (fieldAccumulator st) n pids crackIdx.
Proof.
  intros Hconn Hcrack Hpids (Hdom & Hslots & _) pid Hpid.
  destruct (fieldAccumulator st !! (node_id n, pid)) as [labels|] eqn:Hkey.
  - destruct (Hslots _ _ Hkey) as (-> & _). by eapply lookup_lt_Some.
  - simpl. intros ND.
    destruct (conn_inverse _ _ _ Hconn ND _ _ Hpids pid Hpid) as (ids & Hids & Hnid).
    destruct (conn_particles_known _ _ _ Hconn _ _ Hpids pid Hpid) as (p & Hp & <-).
    destruct (Hdom p ids (node_id n) Hp Hids Hnid) as [labels Hl]. congruence.
Qed.

Lemma remapped_ok cracks crackIdx crack a b labels :
  cracks !! crackIdx = Some crack ->
  ~ shortCrack crack ->
  labelOK b ->
  length labels = length cracks /\ Forall labelOK labels /\
    (forall i c, cracks !! i = Some c -> shortCrack c -> labels !! i = Some 1) ->
  length (remapped crackIdx a b labels) = length cracks /\
  Forall labelOK (remapped crackIdx a b labels) /\
  (forall i c, cracks !! i = Some c -> shortCrack c ->
               remapped crackIdx a b labels !! i = Some 1).
Proof.
  intros Hcrack Hlong Hb (Hlen & Hall & Hone).
  split; [by rewrite remapped_length|]. unfold remapped.
  case_decide as H; [|done]. split.
  - apply Forall_insert; [done|done].
  - intros i c Hc Hs. destruct (decide (i = crackIdx)) as [-> | Hi].
    + assert (c = crack) as -> by congruence. done.
    + rewrite list_lookup_insert_ne by done. by eapply Hone.
Qed.

Lemma seen_of_short cracks crackIdx crack acc n pids seen :
  slotsOK cracks acc ->
  cracks !! crackIdx = Some crack ->
  shortCrack crack ->
  NoDup seen ->
  (forall v, v ∈ seen <-> sees acc n pids crackIdx v) ->
  (length (sortNumeric seen) <= 1)%nat.
Proof.
  intros Hslots Hcrack Hshort Hnd Hseen.
  unfold sortNumeric. rewrite length_stableSort.
  apply (one_label 1); [done|].
  intros v Hv. apply Hseen in Hv as (pid & _ & Hv). unfold labelAt in Hv.
  destruct (acc !! (node_id n, pid)) as [labels|] eqn:Hkey; [|done]. simpl in Hv.
  destruct (Hslots _ _ Hkey) as (_ & _ & Hone).
  rewrite (Hone crackIdx crack Hcrack Hshort) in Hv. congruence.
Qed.

Lemma consistencyNode_inv nodes particles cracks conn first crack crackIdx n st :
  connOK nodes particles conn ->
  cracks !! crackIdx = Some crack ->
  n ∈ nodes ->
  runOK particles cracks conn first st ->
  wp (mayFail particles) (consistencyNode conn crackIdx n)
     (fun _ => runOK particles cracks conn first) st.
Proof.
  intros Hconn Hcrack Hn Hok.
  destruct (conn_node _ _ _ Hconn n Hn) as [pids Hpids].
  destruct (decide (pids = [])) as [-> | Hne].
  { unfold consistencyNode. apply wp_bind, wp_defined. rewrite Hpids.
    by apply wp_ret. }
  eapply wp_mono.
  { apply (consistencyNode_spec _ conn crackIdx n pids st Hpids Hne).
    by eapply slotsUsable_run. }
  intros [] st' (seen & Hnd & Hseen & _ & H). cbv zeta in H.
  pose proof Hok as (Hdom & Hslots & Hsteps & Hhead).
  set (sorted := sortNumeric seen) in *.
  destruct (remapActive sorted) eqn:Hact.
  - destruct H as (Hin & Hout & Hnew).
    unfold remapActive in Hact. apply andb_true_iff in Hact as [Hlen Hfrom].
    apply Nat.eqb_eq in Hlen.
    assert (~ shortCrack crack) as Hlong.
    { intros Hs.
      pose proof (seen_of_short cracks crackIdx crack _ n pids seen
                    Hslots Hcrack Hs Hnd Hseen) as Hle.
      fold sorted in Hle. lia. }
    assert (labelOK (snd (remapChoice sorted))) as Hb.
    { destruct (remapChoice_cases sorted) as [E | [E | E]]; rewrite E in *; simpl.
      - right. by right.
      - right. by left.
      - done. }
    assert (forall key,
              fieldAccumulator st' !! key = fieldAccumulator st !! key \/
              fieldAccumulator st' !! key
              = remapped crackIdx (fst (remapChoice sorted)) (snd (remapChoice sorted))
                  <$> fieldAccumulator st !! key) as Hcases.
    { intros key.
      destruct (decide (key ∈ (fun pid => (node_id n, pid)) <$> pids)) as [Hk | Hk].
      - apply list_elem_of_fmap in Hk as (pid & -> & Hpid). right. by apply Hin.
      - left. apply Hout. intros pid Hpid ->. apply Hk.
        apply list_elem_of_fmap. eauto. }
    assert (slotsOK cracks (fieldAccumulator st')) as Hslots'.
    { intros key labels' Hkey. destruct (Hcases key) as [E | E]; rewrite E in Hkey.
      - by eapply Hslots.
      - destruct (fieldAccumulator st !! key) as [labels|] eqn:Hk; [|done].
        injection Hkey as <-. eapply remapped_ok; eauto. }
    eapply runOK_extend; [exact Hok| |done|exact Hnew|].
    + intros key [labels Hk]. destruct (Hcases key) as [E | E]; rewrite E, Hk; eauto.
    + apply Forall_cons. split.
      { eapply stepOK_plain; [exact Hslots | reflexivity | exact id]. }
      apply Forall_singleton.
      eapply stepOK_plain; [exact Hslots' | reflexivity | exact id].
  - destruct H as (Hacc & Hnew).
    eapply runOK_extend; [exact Hok| |by rewrite Hacc|exact Hnew|].
    + intros key. by rewrite Hacc.
    + apply Forall_cons. split.
      { eapply stepOK_plain; [exact Hslots | reflexivity | exact id]. }
      destruct (length sorted =? 3)%nat; [|done].
      apply Forall_singleton.
      eapply stepOK_plain; [exact Hslots | reflexivity | exact id].
Qed.

Lemma processCrack_inv nodes particles cracks conn first crack crackIdx st :
  connOK nodes particles conn ->
  cracks !! crackIdx = Some crack ->
  runOK particles cracks conn first st ->
  wp (mayFail particles) (processCrack nodes particles conn (crackIdx, crack))
     (fun _ => runOK particles cracks conn first) st.
Proof.
  intros Hconn Hcrack Hok. unfold processCrack. cbn [fst snd].
  apply wp_bind.
  eapply wp_mono; [apply runOK_push; [done | done | intros ? ?; exact id]|].
  intros [] st1 Hok1.
  apply wp_bind. eapply wp_mono; [by eapply crossingPhase_inv|].
  intros [] st2 Hok2.
  apply wp_bind.
  eapply wp_mono; [apply runOK_push; [done | done | intros ? ?; exact id]|].
  intros [] st3 Hok3.
  apply wp_forEach; [done|].
  intros n st4 Hn Hok4. by eapply consistencyNode_inv.
Qed.

Lemma initAccumulator_spec F nodes particles cracks conn :
  connOK nodes particles conn ->
  wp F (initAccumulator particles cracks conn)
     (fun _ st =>
        steps st = [] /\ stepCounter st = 0 /\
        (forall p ids nid, p ∈ particles ->
           particleToNodes conn !! particle_id p = Some ids -> nid ∈ ids ->
           is_Some (fieldAccumulator st !! (nid, particle_id p))) /\
        (forall key labels, fieldAccumulator st !! key = Some labels ->
           labels = replicate (length cracks) 1))
     (mkRun [] 0 ∅).
Proof.
  intros Hconn. unfold initAccumulator.
  apply (wp_forEach_prefix F
    (fun done st =>
       steps st = [] /\ stepCounter st = 0 /\
       (forall p ids nid, p ∈ done ->
          particleToNodes conn !! particle_id p = Some ids -> nid ∈ ids ->
          is_Some (fieldAccumulator st !! (nid, particle_id p))) /\
       (forall key labels, fieldAccumulator st !! key = Some labels ->
          labels = replicate (length cracks) 1))).
  - split; [done|]. split; [done|]. split.
    + intros p ids nid Hp. by apply elem_of_nil in Hp.
    + intros key labels H. simpl in H. by rewrite lookup_empty in H.
  - intros done p rest st Hsplit (Hs & Hc & Hdom & Hones).
    assert (p ∈ particles) as Hp.
    { rewrite Hsplit. apply elem_of_app. right. left. }
    destruct (conn_particle _ _ _ Hconn p Hp) as [ids Hids].
    apply wp_bind, wp_defined. rewrite Hids.
    eapply wp_mono.
    + apply (wp_forEach_prefix F
        (fun visited st' =>
           steps st' = [] /\ stepCounter st' = 0 /\
           (forall key, is_Some (fieldAccumulator st !! key) ->
                        is_Some (fieldAccumulator st' !! key)) /\
           (forall nid, nid ∈ visited ->
                        is_Some (fieldAccumulator st' !! (nid, particle_id p))) /\
           (forall key labels, fieldAccumulator st' !! key = Some labels ->
              labels = replicate (length cracks) 1))).
      * split; [done|]. split; [done|]. split; [done|]. split; [|done].
        intros nid H. by apply elem_of_nil in H.
      * intros visited nid rest' st' _ (Hs' & Hc' & Hmono & Hvis & Hones').
        apply wp_modify. cbn [steps stepCounter fieldAccumulator].
        split; [done|]. split; [done|]. split; [|split].
        -- intros key Hk. destruct (decide ((nid, particle_id p) = key)) as [<- | Hne].
           ++ rewrite lookup_insert_eq. eauto.
           ++ rewrite lookup_insert_ne by done. by apply Hmono.
        -- intros m Hm.
           destruct (decide ((nid, particle_id p) = (m, particle_id p))) as [E | Hne].
           ++ rewrite E, lookup_insert_eq. eauto.
           ++ rewrite lookup_insert_ne by done. apply Hvis.
              apply elem_of_app in Hm as [Hm | Hm]; [done|].
              apply list_elem_of_singleton in Hm. by subst.
        -- intros key labels. destruct (decide ((nid, particle_id p) = key)) as [<- | Hne].
           ++ rewrite lookup_insert_eq. by intros [= <-].
           ++ rewrite lookup_insert_ne by done. apply Hones'.
    + intros [] st' (Hs' & Hc' & Hmono & Hvis & Hones').
      split; [done|]. split; [done|]. split; [|done].
      intros q ids' nid Hq Hids' Hnid.
      apply elem_of_app in Hq as [Hq | Hq].
      * by eapply Hmono, Hdom.
      * apply list_elem_of_singleton in Hq as ->.
        assert (ids' = ids) as -> by congruence. by apply Hvis.
Qed.

Lemma allOnes_slotsOK (cracks : list Crack) (acc : gmap (Z * Z) (list Z)) :
  (forall key labels, acc !! key = Some labels -> labels = replicate (length cracks) 1) ->
  slotsOK cracks acc.
Proof.
  intros Hones key labels Hkey. rewrite (Hones key labels Hkey).
  split; [apply length_replicate|]. split.
  - apply Forall_replicate. by left.
  - intros i c Hc _. apply lookup_replicate_2. by eapply lookup_lt_Some.
Qed.

Lemma recordTrace_spec nodes particles cracks conn :
  connOK nodes particles conn ->
  wp (mayFail particles) (recordTrace nodes particles cracks conn)
     (fun _ st =>
        exists acc0,
          (forall key labels, acc0 !! key = Some labels ->
             labels = replicate (length cracks) 1) /\
          runOK particles cracks conn (initStep 0 (computeCombinedField acc0)) st)
     (mkRun [] 0 ∅).
Proof.
  intros Hconn. unfold recordTrace.
  apply wp_bind. eapply wp_mono; [by eapply initAccumulator_spec|].
  intros [] st0 (Hs & Hc & Hdom & Hones).
  pose proof (allOnes_slotsOK cracks _ Hones) as Hslots.
  apply wp_bind, wp_push. rewrite Hs, Hc. cbn [app].
  set (first := initStep 0 (computeCombinedField (fieldAccumulator st0))).
  assert (runOK particles cracks conn first
            (mkRun [first] (0 + 1) (fieldAccumulator st0))) as Hok.
  { split; [done|]. split; [done|]. split; [|done].
    apply Forall_singleton. eapply stepOK_plain; [exact Hslots | reflexivity | exact id]. }
  apply wp_bind. eapply wp_mono.
  - apply (wp_forEach _ (runOK particles cracks conn first)); [exact Hok|].
    intros [crackIdx crack] st Hin Hst.
    apply elem_of_lookup_imap in Hin as (i & c & [= -> ->] & Hc').
    by eapply processCrack_inv.
  - intros [] st Hst.
    eapply wp_mono; [apply runOK_push; [exact Hst | done | intros ? ?; exact id]|].
    intros [] st' Hst'. eauto.
Qed.

(** A run either returns a trace of well-formed steps that starts with the
    initialization step over all-1 slots, or raises [TypeError] on input
    with a duplicated particle id; it never leaves the range of a label
    array. *)
Lemma generateSimulationSteps_outcome nodes particles cracks :
  match generateSimulationSteps nodes particles cracks with
  | Returns trace =>
      exists acc0 rest,
        (forall key labels, acc0 !! key = Some labels ->
           labels = replicate (length cracks) 1) /\
        trace = initStep 0 (computeCombinedField acc0) :: rest /\
        Forall (stepOK cracks) trace
  | Fails e => mayFail particles e
  end.
Proof.
  unfold generateSimulationSteps.
  destruct (buildConnectivity_ok nodes particles) as (conn & -> & Hconn).
  pose proof (recordTrace_spec nodes particles cracks conn Hconn) as H.
  unfold wp in H.
  destruct (recordTrace nodes particles cracks conn (mkRun [] 0 ∅)) as [[[] st]|e];
    [|done].
  destruct H as (acc0 & Hones & _ & _ & Hsteps & Hhead).
  destruct (steps st) as [|s rest] eqn:E; [done|].
  injection Hhead as ->. eauto.
Qed.

Lemma generateSimulationSteps_returns nodes particles cracks :
  NoDup (map particle_id particles) ->
  exists trace, generateSimulationSteps nodes particles cracks = Returns trace.
Proof.
  intros ND. pose proof (generateSimulationSteps_outcome nodes particles cracks) as H.
  destruct (generateSimulationSteps nodes particles cracks) as [trace|[|]];
    [eauto|done|done].
Qed.

(** Without distinct particle ids a run can fail: two particles with id 0
    in opposite corners of the 3x3 grid of the second preset.  The second
    overwrites [particleToNodes[0]], node 0 keeps particle 0 in
    [nodeToParticles[0]], and the consistency pass reads the missing key
    ["0-0"]. *)
Lemma duplicate_particle_ids_raise :
  generateSimulationSteps case2_nodes
    [mkParticle 0 (mkPoint (7 # 2) (7 # 2)); mkParticle 0 (mkPoint (13 # 2) (13 # 2))]
    case1_cracks
  = Fails TypeError.
Proof. vm_compute. reflexivity. Qed.

(** ** Runs without connected pairs *)

Lemma run_bind {S A B} (m : M S A) (k : A -> M S B) s a s' :
  m s = Returns (a, s') -> (m ≫= k) s = k a s'.
Proof. intros H. unfold mbind, M_bind. by rewrite H. Qed.

Lemma forEach_skip {S A} (l : list A) (body : A -> M S unit) s :
  (forall a, a ∈ l -> body a s = Returns (tt, s)) ->
  forEach l body s = Returns (tt, s).
Proof.
  induction l as [|a l IH]; intros H; simpl; [done|].
  rewrite (run_bind _ _ s tt s) by (apply H; left).
  apply IH. intros b Hb. apply H. by right.
Qed.

Lemma no_pairs nodes particles conn :
  connOK nodes particles conn ->
  nodes = [] \/ particles = [] ->
  (forall p, p ∈ particles -> particleToNodes conn !! particle_id p = Some []) /\
  (forall n, n ∈ nodes -> nodeToParticles conn !! node_id n = Some []).
Proof.
  intros Hconn [-> | ->]; split.
  - intros p Hp. destruct (conn_particle _ _ _ Hconn p Hp) as [ids Hids].
    destruct ids as [|nid ids]; [done|].
    destruct (conn_nodes_known _ _ _ Hconn _ _ Hids nid) as (n & Hn & _); [left|].
    by apply elem_of_nil in Hn.
  - intros n Hn. by apply elem_of_nil in Hn.
  - intros p Hp. by apply elem_of_nil in Hp.
  - intros n Hn. destruct (conn_node _ _ _ Hconn n Hn) as [ps Hps].
    destruct ps as [|pid ps]; [done|].
    destruct (conn_particles_known _ _ _ Hconn _ _ Hps pid) as (p & Hp & _); [left|].
    by apply elem_of_nil in Hp.
Qed.

Lemma processCrack_no_pairs nodes particles conn indexed st :
  (forall p, p ∈ particles -> particleToNodes conn !! particle_id p = Some []) ->
  (forall n, n ∈ nodes -> nodeToParticles conn !! node_id n = Some []) ->
  processCrack nodes particles conn indexed st
  = Returns (tt, mkRun (steps st ++
                          [crackStep (snd indexed) (stepCounter st)
                             (computeCombinedField (fieldAccumulator st));
                           phaseStep (snd indexed) (stepCounter st + 1)
                             (computeCombinedField (fieldAccumulator st))])
                       (stepCounter st + 1 + 1) (fieldAccumulator st)).
Proof.
  intros Hp Hn. unfold processCrack.
  erewrite run_bind by reflexivity.
  erewrite run_bind.
  2:{ unfold crossingPhase. apply forEach_skip. intros p Hin.
      erewrite run_bind by (rewrite (Hp p Hin); reflexivity). reflexivity. }
  erewrite run_bind by reflexivity.
  rewrite forEach_skip.
  - cbn [steps stepCounter fieldAccumulator]. by rewrite <- app_assoc.
  - intros n Hin. unfold consistencyNode.
    erewrite run_bind by (rewrite (Hn n Hin); reflexivity). reflexivity.
Qed.

Lemma cracks_no_pairs nodes particles conn :
  (forall p, p ∈ particles -> particleToNodes conn !! particle_id p = Some []) ->
  (forall n, n ∈ nodes -> nodeToParticles conn !! node_id n = Some []) ->
  forall cracks (f : nat -> Crack -> nat * Crack) st,
    (forall i c, snd (f i c) = c) ->
    fieldAccumulator st = ∅ ->
    forEach (imap f cracks) (processCrack nodes particles conn) st
    = Returns (tt, mkRun (steps st ++ bareCrackSteps (stepCounter st) cracks)
                         (stepCounter st + 2 * Z.of_nat (length cracks)) ∅).
Proof.
  intros Hp Hn. induction cracks as [|c cracks IH]; intros f st Hf Hacc.
  - simpl. unfold mret, M_ret. destruct st as [s k a]; simpl in *.
    rewrite app_nil_r, Z.add_0_r. by subst.
  - cbn [imap forEach].
    erewrite run_bind by by apply processCrack_no_pairs.
    rewrite IH; [|intros; apply Hf|done].
    cbn [steps stepCounter fieldAccumulator bareCrackSteps].
    rewrite Hf, Hacc. unfold computeCombinedField. rewrite fmap_empty.
    rewrite <- app_assoc. cbn [app]. do 3 f_equal; [|cbn [length]; lia].
    do 4 f_equal. lia.
Qed.

Lemma recordTrace_no_pairs nodes particles cracks conn :
  (forall p, p ∈ particles -> particleToNodes conn !! particle_id p = Some []) ->
  (forall n, n ∈ nodes -> nodeToParticles conn !! node_id n = Some []) ->
  exists st, recordTrace nodes particles cracks conn (mkRun [] 0 ∅) = Returns (tt, st) /\
             steps st = bareTrace cracks.
Proof.
  intros Hp Hn. unfold recordTrace.
  erewrite run_bind.
  2:{ unfold initAccumulator. apply forEach_skip. intros p Hin.
      erewrite run_bind by (rewrite (Hp p Hin); reflexivity). reflexivity. }
  erewrite run_bind by reflexivity.
  erewrite run_bind by (by apply cracks_no_pairs).
  eexists. split; [reflexivity|].
  cbn [steps stepCounter fieldAccumulator app]. unfold bareTrace.
  unfold computeCombinedField. rewrite fmap_empty. reflexivity.
Qed.

(** ** Claims on whole runs *)

(** C5, as stated: a crack with fewer than 2 points would make the run fail
    with an [InvalidCrack] error.  The program has no such check: on the
    first preset with the crack cut down to its first point a trace is
    returned. *)
Lemma short_crack_returns_trace :
  let cracks := [mkCrack 0 [pt 1 5]] in
  (exists c, c ∈ cracks /\ shortCrack c) /\
  exists trace,
    generateSimulationSteps case1_nodes case1_particles cracks = Returns trace.
Proof.
  split.
  - eexists. split; [left|]. unfold shortCrack. simpl. lia.
  - eexists. vm_compute. reflexivity.
Qed.

(** C5, amended.  On input with a crack of fewer than 2 points (and
    distinct particle ids) the run returns a trace; no failure of a run is
    due to a crack: the only one is the [TypeError] on a duplicated
    particle id. *)
Theorem short_crack_no_error nodes particles cracks crack :
  crack ∈ cracks ->
  shortCrack crack ->
  (NoDup (map particle_id particles) ->
   exists trace, generateSimulationSteps nodes particles cracks = Returns trace) /\
  (forall e, generateSimulationSteps nodes particles cracks = Fails e ->
             e = TypeError /\ ~ NoDup (map particle_id particles)).
Proof.
  intros _ _. split; [apply generateSimulationSteps_returns|].
  intros e He. pose proof (generateSimulationSteps_outcome nodes particles cracks) as H.
  rewrite He in H. by destruct e.
Qed.

Lemma short_crack_no_error_witness :
  exists trace,
    generateSimulationSteps case1_nodes case1_particles [mkCrack 0 [pt 1 5]]
    = Returns trace.
Proof.
  apply (short_crack_no_error case1_nodes case1_particles
           [mkCrack 0 [pt 1 5]] (mkCrack 0 [pt 1 5])).
  - left.
  - unfold shortCrack. simpl. lia.
  - apply (bool_decide_unpack _). vm_compute. reflexivity.
Defined.

(** C7, as stated: with no nodes or no particles the trace would be the
    initialization and completion steps only.  With one crack it has four
    steps. *)
Lemma empty_input_trace_has_crack_steps :
  ~ (forall nodes particles cracks,
       nodes = [] \/ particles = [] ->
       exists s0 s1, generateSimulationSteps nodes particles cracks = Returns [s0; s1]).
Proof.
  intros H.
  destruct (H [] [] [mkCrack 0 [pt 1 5; pt 9 5]]) as (s0 & s1 & E); [by left|].
  vm_compute in E. discriminate.
Qed.

(** C7, amended.  With no nodes or no particles the run returns the
    initialization step, then for every crack in order its crack-start step
    and its consistency-phase step, then the completion step, all with an
    empty snapshot; there is no segment, result, report, warning or
    normalization step. *)
Theorem empty_input_trace nodes particles cracks :
  nodes = [] \/ particles = [] ->
  generateSimulationSteps nodes particles cracks = Returns (bareTrace cracks) /\
  Forall (fun s => ~ isCrossingStep s /\ ~ isPerNodeStep s /\ currentFieldState s = ∅)
         (bareTrace cracks) /\
  length (bareTrace cracks) = (2 + 2 * length cracks)%nat.
Proof.
  intros Hempty. split; [|split].
  - unfold generateSimulationSteps.
    destruct (buildConnectivity_ok nodes particles) as (conn & -> & Hconn).
    destruct (no_pairs nodes particles conn Hconn Hempty) as [Hp Hn].
    destruct (recordTrace_no_pairs nodes particles cracks conn Hp Hn) as (st & -> & E).
    by rewrite E.
  - unfold bareTrace. apply Forall_cons. split; [by repeat split; try exact id|].
    apply Forall_app. split; [|by repeat constructor; try exact id].
    generalize 1. induction cracks as [|c cracks IH]; intros sid; simpl; [done|].
    repeat (apply Forall_cons; split; [by repeat split; try exact id|]). apply IH.
  - unfold bareTrace. cbn [length]. rewrite length_app. cbn [length].
    assert (forall sid, length (bareCrackSteps sid cracks) = (2 * length cracks)%nat) as ->.
    { induction cracks as [|c cracks IH]; intros sid; simpl; [done|]. rewrite IH. lia. }
    lia.
Qed.

Lemma empty_input_trace_witness :
  generateSimulationSteps case1_nodes [] case1_cracks = Returns (bareTrace case1_cracks).
Proof.
  apply (empty_input_trace case1_nodes [] case1_cracks). by right.
Defined.







(** *** A crack without segments *)









(** ** The first preset *)

(** C6, as stated: for every node the segment test would yield 3 with
    particle (5,4) and 2 with particle (5,6), and every node would see
    {2,3}.  The nodes (2,2) and (8,2) lie on the side of particle (5,4):
    their segment to it does not cross the crack and the test yields 0. *)
Lemma case1_same_side_pairs_do_not_cross :
  ~ (forall n : Node, n ∈ case1_nodes ->
       result (checkCrossing (pt 5 4) n (pt 1 5) (pt 9 5)) = 3 /\
       result (checkCrossing (pt 5 6) n (pt 1 5) (pt 9 5)) = 2).
Proof.
  intros H. destruct (H (mkNode 0 (pt 2 2))) as [H3 _]; [left|].
  vm_compute in H3. discriminate.
Qed.

(** C6, amended.  On the first preset each particle is connected to all 4
    nodes.  The segment test yields 3 for particle (5,4) with the nodes
    (2,8) and (8,8) and 0 with (2,2) and (8,2); it yields 2 for particle
    (5,6) with (2,2) and (8,2) and 0 with (2,8) and (8,8); after the
    crossing phase the crossing pairs are labelled 3 and 2 and the others
    1.  The nodes (2,2) and (8,2) see {1,2} and remap 1 to 3, the nodes
    (2,8) and (8,8) see {1,3} and remap 1 to 2; there is no warning.  In
    the final step every pair of particle (5,4) has label 3 and every pair
    of particle (5,6) has label 2. *)
Theorem case1_trace :
  exists conn trace final,
    buildConnectivity case1_nodes case1_particles (mkConnectivity ∅ ∅)
    = Returns (tt, conn) /\
    particleToNodes conn !! 0 = Some [0; 1; 2; 3] /\
    particleToNodes conn !! 1 = Some [2; 3; 0; 1] /\
    generateSimulationSteps case1_nodes case1_particles case1_cracks = Returns trace /\
    crossingTests trace
    = [(0, 0, 0); (1, 0, 0); (2, 0, 3); (3, 0, 3);
       (2, 1, 0); (3, 1, 0); (0, 1, 2); (1, 1, 2)] /\
    afterCrossing trace
    = Some (list_to_map [((0, 0), 1); ((1, 0), 1); ((2, 0), 3); ((3, 0), 3);
                         ((0, 1), 2); ((1, 1), 2); ((2, 1), 1); ((3, 1), 1)]) /\
    nodeReports trace = [(0, [1; 2]); (1, [1; 2]); (2, [1; 3]); (3, [1; 3])] /\
    remaps trace = [(0, 1, 3); (1, 1, 3); (2, 1, 2); (3, 1, 2)] /\
    warnings trace = [] /\
    last trace = Some final /\
    description final = ComputationComplete /\
    currentFieldState final
    = list_to_map [((0, 0), 3); ((1, 0), 3); ((2, 0), 3); ((3, 0), 3);
                   ((0, 1), 2); ((1, 1), 2); ((2, 1), 2); ((3, 1), 2)].
Proof.
  eexists _, _, _.
  split; [vm_compute; reflexivity|].
  split; [vm_compute; reflexivity|].
  split; [vm_compute; reflexivity|].
  split; [vm_compute; reflexivity|].
  split; [vm_compute; reflexivity|].
  split; [vm_compute; reflexivity|].
  split; [vm_compute; reflexivity|].
  split; [vm_compute; reflexivity|].
  split; [vm_compute; reflexivity|].
  split; [vm_compute; reflexivity|].
  split; vm_compute; reflexivity.
Qed.

(** ** Instances of the claims on the consistency pass *)

Lemma consistency_remap_witness :
  exists st',
    consistencyNode (mkConnectivity ∅ {[ 0 := [0; 1] ]}) 0 (mkNode 0 (pt 2 2))
      (mkRun [] 0 {[ (0, 0) := [1]; (0, 1) := [2] ]})
    = Returns (tt, st') /\
    labelAt (fieldAccumulator st') (0, 0) 0 = Some 3 /\
    fieldAccumulator st' !! (0, 1) = Some [2].
Proof.
  destruct (consistency_remap (mkConnectivity ∅ {[ 0 := [0; 1] ]}) 0%nat
              (mkNode 0 (pt 2 2)) [0; 1]
              (mkRun [] 0 {[ (0, 0) := [1]; (0, 1) := [2] ]}))
    as (st' & Hrun & H12 & _).
  - reflexivity.
  - discriminate.
  - intros pid Hpid. apply elem_of_cons in Hpid as [-> | Hpid];
      [by eexists|].
    apply list_elem_of_singleton in Hpid as ->. by eexists.
  - exists st'. split; [exact Hrun|].
    assert (forall v, sees {[ (0, 0) := [1]; (0, 1) := [2] ]} (mkNode 0 (pt 2 2))
                        [0; 1] 0 v <-> v = 1 \/ v = 2) as Hset.
    { intros v. rewrite !sees_cons. split.
      - intros [H | [H | H]]; [left | right | by apply sees_nil in H];
          vm_compute in H; congruence.
      - intros [-> | ->]; [left | right; left]; reflexivity. }
    split.
    + apply (H12 Hset 0); [left | reflexivity].
    + pose proof (proj2 (H12 Hset 1 ltac:(right; left)) eq_refl) as E.
      cbn [node_id fieldAccumulator] in E. rewrite E. reflexivity.
Defined.

Lemma three_way_conflict_witness :
  exists st',
    consistencyNode (mkConnectivity ∅ {[ 0 := [0; 1; 2] ]}) 0 (mkNode 0 (pt 2 2))
      (mkRun [] 0 {[ (0, 0) := [1]; (0, 1) := [2]; (0, 2) := [3] ]})
    = Returns (tt, st') /\
    fieldAccumulator st' = {[ (0, 0) := [1]; (0, 1) := [2]; (0, 2) := [3] ]} /\
    length (filter (fun s => isWarning s = true) (steps st')) = 1%nat.
Proof.
  destruct (three_way_conflict (mkConnectivity ∅ {[ 0 := [0; 1; 2] ]}) 0%nat
              (mkNode 0 (pt 2 2)) [0; 1; 2]
              (mkRun [] 0 {[ (0, 0) := [1]; (0, 1) := [2]; (0, 2) := [3] ]}))
    as (st' & new & Hrun & Hacc & Hsteps & _ & Hwarn & _).
  - reflexivity.
  - intros pid Hpid. apply elem_of_cons in Hpid as [-> | Hpid]; [by eexists|].
    apply elem_of_cons in Hpid as [-> | Hpid]; [by eexists|].
    apply list_elem_of_singleton in Hpid as ->. by eexists.
  - intros v. rewrite !sees_cons. split.
    + intros [H | [H | [H | H]]]; [| | |by apply sees_nil in H];
        vm_compute in H; injection H as <-; auto.
    + intros [-> | [-> | ->]]; [left | right; left | right; right; left]; reflexivity.
  - exists st'. split; [exact Hrun|]. split; [exact Hacc|].
    rewrite Hsteps. exact Hwarn.
Defined.

(** * Further properties of the code *)

(** ** Signed areas and the classifier *)

(** X1.  The signed area is unchanged by a cyclic rotation of the three
    points and by a common translation, changes sign when two points are
    exchanged, and is 0 when two of the points coincide. *)
Theorem triangleArea_symmetries (a b c t : Point) :
  (triangleArea b c a == triangleArea a b c)%Q /\
  (triangleArea b a c == - triangleArea a b c)%Q /\
  (triangleArea a c b == - triangleArea a b c)%Q /\
  (triangleArea a a c == 0)%Q /\
  (triangleArea a b b == 0)%Q /\
  (triangleArea a b a == 0)%Q /\
  (triangleArea (translate t a) (translate t b) (translate t c) == triangleArea a b c)%Q.
Proof.
  unfold triangleArea, translate; cbn [x y]. repeat split; ring.
Qed.



(** X2.  A segment of length zero is never crossed, and a particle that
    lies on its node crosses nothing: in both cases the result is 0. *)
Theorem checkCrossing_degenerate (p n s e : Point) :
  result (checkCrossing p n s s) = 0 /\ result (checkCrossing p p s e) = 0.
Proof.
  split; apply result_none; rewrite checkCrossing_areas;
    unfold above_pattern, below_pattern; cbn [area1 area2 area3 area4].
  - pose proof (triangleArea_symmetries s s p s) as (_ & _ & _ & H & _).
    pose proof (triangleArea_symmetries s s n s) as (_ & _ & _ & H' & _).
    split; [intros (_ & _ & _ & G) | intros (_ & _ & G & _)]; lra.
  - pose proof (triangleArea_symmetries p p s p) as (_ & _ & _ & H & _).
    pose proof (triangleArea_symmetries p p e p) as (_ & _ & _ & H' & _).
    split; [intros (G & _) | intros (_ & G & _)]; lra.
Qed.


(** ** The cancellation rule in closed form *)

(** X4.  For counters [f2, f3 >= 0] the final label is 1 when [f2 - f3] is
    even, and otherwise 2 when [f2 > f3] and 3 when [f3 > f2]; one more
    crossing of each kind does not change it. *)
Theorem final_label_by_difference (f2 f3 : Z) :
  0 <= f2 -> 0 <= f3 ->
  finalFieldOf (cancellation f2 f3)
  = (if Z.even (f2 - f3) then 1 else if f3 <? f2 then 2 else 3) /\
  finalFieldOf (cancellation (f2 + 1) (f3 + 1)) = finalFieldOf (cancellation f2 f3).
Proof.
  assert (forall a b, 0 <= a -> 0 <= b ->
            finalFieldOf (cancellation a b)
            = (if Z.even (a - b) then 1 else if b <? a then 2 else 3)) as H.
  { intros a b Ha Hb. rewrite cancellation_min by done.
    rewrite finalFieldOf_cases by lia.
    destruct (Z.min_spec a b) as [[Hlt ->] | [Hle ->]].
    - rewrite Z.sub_diag. change (Z.odd 0) with false. cbv iota.
      replace (a - b) with (- (b - a)) by lia. rewrite Z.even_opp.
      rewrite <- Z.negb_odd. destruct (Z.odd (b - a)); simpl; [|done].
      destruct (b <? a) eqn:E; [apply Z.ltb_lt in E; lia | done].
    - rewrite Z.sub_diag. change (Z.odd 0) with false.
      rewrite <- Z.negb_odd. destruct (Z.odd (a - b)) eqn:Eo; simpl; [|done].
      destruct (b <? a) eqn:E; [done|]. apply Z.ltb_ge in E.
      assert (a = b) as -> by lia. rewrite Z.sub_diag in Eo. done. }
  intros H2 H3. split; [by apply H|].
  rewrite !H by lia. replace (f2 + 1 - (f3 + 1)) with (f2 - f3) by lia.
  destruct (Z.even (f2 - f3)); [done|].
  destruct (f3 <? f2) eqn:E; destruct (f3 + 1 <? f2 + 1) eqn:E'; try done;
    rewrite ?Z.ltb_lt, ?Z.ltb_ge in *; lia.
Qed.

Lemma final_label_by_difference_witness :
  finalFieldOf (cancellation 3 1) = 1 /\
  finalFieldOf (cancellation 4 2) = finalFieldOf (cancellation 3 1).
Proof.
  apply (final_label_by_difference 3 1); lia.
Defined.

(** ** The nearest-node selection *)








(** ** The two connectivity maps *)

Lemma closestNodes_ids_NoDup p nodes :
  NoDup (map node_id nodes) -> NoDup (map node_id (closestNodes p nodes)).
Proof.
  intros ND. unfold closestNodes.
  change (map node_id) with (fmap (M := list) node_id) in *. rewrite fmap_take.
  eapply sublist_NoDup; [|apply sublist_take].
  by rewrite stableSort_perm.
Qed.

Lemma registerNodes_exact nodes :
  wp never (forEach nodes registerNode)
     (fun _ c => particleToNodes c = ∅ /\
                 (forall n, n ∈ nodes -> nodeToParticles c !! node_id n = Some []) /\
                 (forall nid, is_Some (nodeToParticles c !! nid) -> nid ∈ map node_id nodes))
     (mkConnectivity ∅ ∅).
Proof.
  apply (wp_forEach_prefix never
    (fun done c => particleToNodes c = ∅ /\
                   (forall n, n ∈ done -> nodeToParticles c !! node_id n = Some []) /\
                   (forall nid, is_Some (nodeToParticles c !! nid) ->
                                nid ∈ map node_id done))).
  - split; [done|]. split.
    + intros n Hn. by apply elem_of_nil in Hn.
    + intros nid [ps H]. simpl in H. by rewrite lookup_empty in H.
  - intros done n rest c _ (Hp & Hn & Hd). apply wp_modify. simpl.
    split; [done|]. split.
    + intros m Hm. destruct (decide (node_id n = node_id m)) as [E | E].
      * by rewrite E, lookup_insert_eq.
      * rewrite lookup_insert_ne by done. apply Hn.
        apply elem_of_app in Hm as [Hm | Hm]; [done|].
        apply list_elem_of_singleton in Hm. by subst.
    + intros nid H. rewrite map_app. apply elem_of_app.
      destruct (decide (node_id n = nid)) as [E | E].
      * right. rewrite <- E. left.
      * left. apply Hd. by rewrite lookup_insert_ne in H.
Qed.

Lemma buildConnectivity_exact nodes particles :
  NoDup (map node_id nodes) ->
  NoDup (map particle_id particles) ->
  exists conn,
    buildConnectivity nodes particles (mkConnectivity ∅ ∅) = Returns (tt, conn) /\
    (forall p, p ∈ particles ->
       particleToNodes conn !! particle_id p = Some (map node_id (closestNodes p nodes))) /\
    (forall pid, is_Some (particleToNodes conn !! pid) -> pid ∈ map particle_id particles) /\
    (forall n, n ∈ nodes ->
       nodeToParticles conn !! node_id n
       = Some (map particle_id
                 (filter (fun p : Particle =>
                            node_id n ∈ map node_id (closestNodes p nodes)) particles))) /\
    (forall nid, is_Some (nodeToParticles conn !! nid) -> nid ∈ map node_id nodes).
Proof.
  intros NDn NDp.
  set (I := fun (done : list Particle) (c : Connectivity) =>
    (forall p, p ∈ done ->
       particleToNodes c !! particle_id p = Some (map node_id (closestNodes p nodes))) /\
    (forall pid, is_Some (particleToNodes c !! pid) -> pid ∈ map particle_id done) /\
    (forall n, n ∈ nodes ->
       nodeToParticles c !! node_id n
       = Some (map particle_id
                 (filter (fun p : Particle =>
                            node_id n ∈ map node_id (closestNodes p nodes)) done))) /\
    (forall nid, is_Some (nodeToParticles c !! nid) -> nid ∈ map node_id nodes)).
  assert (wp never (buildConnectivity nodes particles) (fun _ => I particles)
            (mkConnectivity ∅ ∅)) as H.
  { unfold buildConnectivity. apply wp_bind.
    eapply wp_mono; [apply registerNodes_exact|].
    intros [] c (Hp & Hn & Hd).
    apply (wp_forEach_prefix never I).
    { split; [|split; [|split]]; try done.
      - intros p Hp'. by apply elem_of_nil in Hp'.
      - intros pid [ids H]. by rewrite Hp, lookup_empty in H. }
    clear c Hp Hn Hd.
    intros done p rest c Hsplit (Ia & Ib & Ic & Id).
    assert (particle_id p ∉ map particle_id done) as Hfresh.
    { rewrite Hsplit, map_app in NDp. apply NoDup_app in NDp as (_ & Hf & _).
      intros Hin. apply (Hf _ Hin). simpl. left. }
    unfold connectParticle. apply wp_bind, wp_modify.
    set (connected := closestNodes p nodes).
    set (ptn1 := <[particle_id p := map node_id connected]> (particleToNodes c)).
    pose proof (closestNodes_ids_NoDup p nodes NDn) as NDc. fold connected in NDc.
    set (old := fun n : Node =>
      map particle_id
        (filter (fun q : Particle =>
                   node_id n ∈ map node_id (closestNodes q nodes)) done)).
    eapply wp_mono.
    - apply (wp_forEach_prefix never
        (fun visited c' =>
           particleToNodes c' = ptn1 /\
           (forall n, n ∈ nodes ->
              nodeToParticles c' !! node_id n
              = Some (old n ++ if decide (node_id n ∈ map node_id visited)
                               then [particle_id p] else [])) /\
           (forall nid, is_Some (nodeToParticles c' !! nid) -> nid ∈ map node_id nodes))).
      + simpl. split; [done|]. split; [|done].
        intros n Hn. rewrite (Ic n Hn). by rewrite app_nil_r.
      + intros visited m rest' c' Hsplit' (K1 & K2 & K3).
        assert (m ∈ nodes) as Hm.
        { apply (elem_of_closestNodes p). fold connected. rewrite Hsplit'.
          apply elem_of_app. right. left. }
        assert (node_id m ∉ map node_id visited) as Hnew.
        { rewrite Hsplit', map_app in NDc. apply NoDup_app in NDc as (_ & Hf & _).
          intros Hin. apply (Hf _ Hin). simpl. left. }
        eapply wp_pushParticle; [by apply K2|]. simpl.
        split; [done|]. split.
        * intros n Hn. rewrite map_app. simpl.
          destruct (decide (node_id m = node_id n)) as [E | E].
          -- rewrite E, lookup_insert_eq. rewrite <- E.
             rewrite decide_False by done. rewrite app_nil_r.
             rewrite decide_True by (apply elem_of_app; right; left).
             unfold old. by rewrite E.
          -- rewrite lookup_insert_ne by done. rewrite (K2 n Hn).
             do 2 f_equal. destruct (decide (node_id n ∈ map node_id visited)) as [Hv | Hv].
             ++ rewrite decide_True; [done|]. apply elem_of_app. by left.
             ++ rewrite decide_False; [done|]. intros Hin.
                apply elem_of_app in Hin as [Hin | Hin]; [done|].
                apply list_elem_of_singleton in Hin. congruence.
        * intros nid Hs. destruct (decide (node_id m = nid)) as [E | E].
          -- rewrite <- E. apply list_elem_of_fmap. eauto.
          -- apply K3. by rewrite lookup_insert_ne in Hs.
    - intros [] c' (K1 & K2 & K3). split; [|split; [|split]].
      + intros q Hq. rewrite K1. unfold ptn1.
        apply elem_of_app in Hq as [Hq | Hq].
        * rewrite lookup_insert_ne; [by apply Ia|].
          intros E. apply Hfresh. rewrite E. apply list_elem_of_fmap. eauto.
        * apply list_elem_of_singleton in Hq as ->. by rewrite lookup_insert_eq.
      + intros pid. rewrite K1. unfold ptn1. intros Hs. rewrite map_app.
        apply elem_of_app. destruct (decide (particle_id p = pid)) as [E | E].
        * right. rewrite <- E. left.
        * left. apply Ib. by rewrite lookup_insert_ne in Hs.
      + intros n Hn. rewrite (K2 n Hn). f_equal.
        rewrite filter_app, map_app. unfold old. f_equal.
        rewrite filter_cons, filter_nil. subst connected.
        destruct (decide (node_id n ∈ map node_id (closestNodes p nodes))); done.
      + done. }
  apply wp_returns in H as ([] & conn & E & H). eauto.
Qed.

(** X7.  With distinct node ids and distinct particle ids the connectivity
    builder returns two maps that are known entry by entry:
    [particleToNodes] has exactly the particle ids as keys and holds, for
    each particle, the ids of its nearest nodes in order of distance;
    [nodeToParticles] has exactly the node ids as keys and holds, for each
    node, the ids of the particles that selected it, in input order. *)
Theorem buildConnectivity_maps nodes particles :
  NoDup (map node_id nodes) ->
  NoDup (map particle_id particles) ->
  exists conn,
    buildConnectivity nodes particles (mkConnectivity ∅ ∅) = Returns (tt, conn) /\
    (forall p, p ∈ particles ->
       particleToNodes conn !! particle_id p = Some (map node_id (closestNodes p nodes))) /\
    (forall pid, is_Some (particleToNodes conn !! pid) <-> pid ∈ map particle_id particles) /\
    (forall n, n ∈ nodes ->
       nodeToParticles conn !! node_id n
       = Some (map particle_id
                 (filter (fun p : Particle =>
                            node_id n ∈ map node_id (closestNodes p nodes)) particles))) /\
    (forall nid, is_Some (nodeToParticles conn !! nid) <-> nid ∈ map node_id nodes).
Proof.
  intros NDn NDp.
  destruct (buildConnectivity_exact nodes particles NDn NDp)
    as (conn & Hrun & Hp & Hpd & Hn & Hnd).
  exists conn. split; [done|]. split; [done|]. split; [|split; [done|]].
  - intros pid. split; [apply Hpd|].
    intros Hin. apply list_elem_of_fmap in Hin as (p & -> & Hin). rewrite (Hp p Hin). eauto.
  - intros nid. split; [apply Hnd|].
    intros Hin. apply list_elem_of_fmap in Hin as (n & -> & Hin). rewrite (Hn n Hin). eauto.
Qed.

Lemma buildConnectivity_maps_witness :
  exists conn,
    buildConnectivity case1_nodes case1_particles (mkConnectivity ∅ ∅) = Returns (tt, conn) /\
    particleToNodes conn !! 1 = Some [2; 3; 0; 1].
Proof.
  destruct (buildConnectivity_maps case1_nodes case1_particles)
    as (conn & Hrun & Hp & _).
  - apply (bool_decide_unpack _). vm_compute. reflexivity.
  - apply (bool_decide_unpack _). vm_compute. reflexivity.
  - exists conn. split; [exact Hrun|].
    apply (Hp (mkParticle 1 (pt 5 6))). right. left.
Defined.

(** X8.  With distinct ids the two maps are inverse to each other: a node
    id is listed for a particle exactly when the particle id is listed
    for the node. *)
Theorem connectivity_inverse nodes particles :
  NoDup (map node_id nodes) ->
  NoDup (map particle_id particles) ->
  exists conn,
    buildConnectivity nodes particles (mkConnectivity ∅ ∅) = Returns (tt, conn) /\
    forall n p, n ∈ nodes -> p ∈ particles ->
      exists ids ps,
        particleToNodes conn !! particle_id p = Some ids /\
        nodeToParticles conn !! node_id n = Some ps /\
        (node_id n ∈ ids <-> particle_id p ∈ ps).
Proof.
  intros NDn NDp.
  destruct (buildConnectivity_exact nodes particles NDn NDp)
    as (conn & Hrun & Hp & _ & Hn & _).
  exists conn. split; [done|]. intros n p Hin Hip.
  eexists _, _. split; [by apply Hp|]. split; [by apply Hn|].
  split.
  - intros H. apply list_elem_of_fmap. exists p. split; [done|].
    by apply list_elem_of_filter.
  - intros H. apply list_elem_of_fmap in H as (q & Eq & Hq).
    apply list_elem_of_filter in Hq as [Hq Hq'].
    assert (q = p) as -> ; [|done].
    apply list_elem_of_lookup in Hq' as [i Hi]. apply list_elem_of_lookup in Hip as [j Hj].
    assert (i = j) as ->; [|congruence].
    eapply (NoDup_lookup _ _ _ (particle_id p) NDp);
      change (map particle_id) with (fmap (M := list) particle_id);
      rewrite list_lookup_fmap; [rewrite Hi | rewrite Hj]; simpl; congruence.
Qed.

Lemma connectivity_inverse_witness :
  exists conn,
    buildConnectivity case1_nodes case1_particles (mkConnectivity ∅ ∅) = Returns (tt, conn).
Proof.
  destruct (connectivity_inverse case1_nodes case1_particles) as (conn & Hrun & _).
  - apply (bool_decide_unpack _). vm_compute. reflexivity.
  - apply (bool_decide_unpack _). vm_compute. reflexivity.
  - exists conn. exact Hrun.
Defined.

(** ** The field encoder and the line styles of the canvas *)











(** ** Canvas coordinates *)


Lemma clamp_bounds (hi a : Q) :
  (0 <= hi)%Q -> (0 <= Qmax 0 (Qmin hi a) <= hi)%Q.
Proof.
  intros Hhi.
  destruct (Q.max_spec 0 (Qmin hi a)) as [[H E] | [H E]];
    destruct (Q.min_spec hi a) as [[H' E'] | [H' E']]; lra.
Qed.

Lemma clamp_inside (hi a : Q) :
  (0 <= a <= hi)%Q -> (Qmax 0 (Qmin hi a) == a)%Q.
Proof.
  intros Ha.
  destruct (Q.max_spec 0 (Qmin hi a)) as [[H E] | [H E]];
    destruct (Q.min_spec hi a) as [[H' E'] | [H' E']]; lra.
Qed.

(** X13.  Wherever the pointer is, the point handed to the update
    callbacks lies in the grid [0,12] x [0,10], and it is drawn inside the
    view box of the canvas; a point of the grid is left where it is by the
    clamp. *)
Theorem dragged_point_stays_in_view (sx sy : Q) (point : Point) :
  let q := Visualizer.draggedTo sx sy in
  (0 <= x q <= 12)%Q /\ (0 <= y q <= 10)%Q /\
  (0 <= x (Visualizer.toScreen q) <= Visualizer.width)%Q /\
  (0 <= y (Visualizer.toScreen q) <= Visualizer.height)%Q /\
  ((0 <= x point <= 12)%Q -> (0 <= y point <= 10)%Q ->
   (x (Visualizer.clampPoint point) == x point)%Q /\
   (y (Visualizer.clampPoint point) == y point)%Q).
Proof.
  intros q. subst q. unfold Visualizer.draggedTo, Visualizer.clampPoint; cbn [x y].
  pose proof (clamp_bounds 12 (x (Visualizer.fromScreen sx sy)) ltac:(lra)) as Hx.
  pose proof (clamp_bounds 10 (y (Visualizer.fromScreen sx sy)) ltac:(lra)) as Hy.
  split; [done|]. split; [done|].
  unfold Visualizer.toScreen, Visualizer.scale, Visualizer.margin, Visualizer.height,
    Visualizer.width; cbn [x y].
  split; [lra|]. split; [lra|].
  intros Hpx Hpy. split; by apply clamp_inside.
Qed.

Lemma dragged_point_stays_in_view_witness :
  (x (Visualizer.clampPoint (pt 5 4)) == x (pt 5 4))%Q /\
  (y (Visualizer.clampPoint (pt 5 4)) == y (pt 5 4))%Q.
Proof.
  apply (dragged_point_stays_in_view 0 0 (pt 5 4)); vm_compute; split; discriminate.
Defined.

(** ** Editing the scene *)

Lemma handleUpdateNode_ids id pos nodes :
  map node_id (App.handleUpdateNode id pos nodes) = map node_id nodes.
Proof.
  unfold App.handleUpdateNode. rewrite map_map. apply map_ext.
  intros n. by destruct (node_id n =? id).
Qed.

Lemma handleUpdateParticle_ids id pos particles :
  map particle_id (App.handleUpdateParticle id pos particles) = map particle_id particles.
Proof.
  unfold App.handleUpdateParticle. rewrite map_map. apply map_ext.
  intros p. by destruct (particle_id p =? id).
Qed.

(** X14.  Dragging a node or a particle keeps the ids as they are, moves
    every entity with the given id to the new position and leaves the
    others alone (an unknown id changes nothing); so after a drag the ids
    of the particles are still distinct and the next run returns a
    trace. *)
Theorem drag_keeps_ids (id : Z) (pos : Point) nodes particles cracks :
  NoDup (map particle_id particles) ->
  map node_id (App.handleUpdateNode id pos nodes) = map node_id nodes /\
  map particle_id (App.handleUpdateParticle id pos particles) = map particle_id particles /\
  (forall i p, particles !! i = Some p ->
     App.handleUpdateParticle id pos particles !! i
     = Some (if particle_id p =? id then mkParticle id pos else p)) /\
  (id ∉ map particle_id particles -> App.handleUpdateParticle id pos particles = particles) /\
  (exists trace,
     generateSimulationSteps (App.handleUpdateNode id pos nodes) particles cracks
     = Returns trace) /\
  (exists trace,
     generateSimulationSteps nodes (App.handleUpdateParticle id pos particles) cracks
     = Returns trace).
Proof.
  intros ND. split; [apply handleUpdateNode_ids|].
  split; [apply handleUpdateParticle_ids|]. split; [|split; [|split]].
  - intros i p Hi. unfold App.handleUpdateParticle.
    change (map ?f ?l) with (f <$> l). rewrite list_lookup_fmap, Hi. simpl.
    destruct (particle_id p =? id) eqn:E; [|done]. apply Z.eqb_eq in E. by rewrite E.
  - intros Hid. unfold App.handleUpdateParticle.
    rewrite <- (map_id particles) at 2. apply map_ext_in. intros p Hp.
    destruct (particle_id p =? id) eqn:E; [|done]. apply Z.eqb_eq in E.
    exfalso. apply Hid. rewrite <- E. apply list_elem_of_fmap. exists p.
    split; [done|]. by apply list_elem_of_In.
  - by apply generateSimulationSteps_returns.
  - apply generateSimulationSteps_returns. by rewrite handleUpdateParticle_ids.
Qed.

Lemma drag_keeps_ids_witness :
  exists trace,
    generateSimulationSteps case1_nodes
      (App.handleUpdateParticle 0 (pt 6 7) case1_particles) case1_cracks
    = Returns trace.
Proof.
  apply (drag_keeps_ids 0 (pt 6 7) case1_nodes case1_particles case1_cracks).
  apply (bool_decide_unpack _). vm_compute. reflexivity.
Defined.

Lemma segments_cons a b l : segments (a :: b :: l) = (a, b) :: segments (b :: l).
Proof. reflexivity. Qed.

Lemma segments_spliceIn (pos : Point) : forall i pts s e,
  pts !! i = Some s -> pts !! S i = Some e ->
  segments (App.spliceIn (S i) pos pts)
  = take i (segments pts) ++ (s, pos) :: (pos, e) :: drop (S i) (segments pts).
Proof.
  unfold App.spliceIn.
  induction i as [|i IH]; intros [|a [|b l]] s e Hs He; try done.
  - injection Hs as ->. injection He as ->. cbn [take drop app].
    by rewrite !segments_cons.
  - cbn [lookup list_lookup] in Hs, He.
    specialize (IH (b :: l) s e Hs He).
    rewrite segments_cons. cbn [take drop app] in *.
    destruct i as [|i]; cbn [take drop app] in *.
    + rewrite segments_cons. by rewrite IH.
    + rewrite segments_cons. by rewrite IH.
Qed.

(** X15.  A double click on segment [i] of a crack puts the new point
    between the two ends of that segment: the segment from [s] to [e] is
    replaced by the two segments from [s] to the point and from the point
    to [e], the other segments are kept in order, the crack has one point
    more (so it cannot lose its last segment), and the cracks with other
    ids and all crack ids are unchanged. *)
Theorem split_replaces_one_segment (id : Z) (i : nat) (pos : Point) cracks k c s e :
  cracks !! k = Some c ->
  crack_id c = id ->
  segments (points c) !! i = Some (s, e) ->
  exists c',
    App.handleSplitCrack id i pos cracks !! k = Some c' /\
    crack_id c' = id /\
    length (points c') = S (length (points c)) /\
    segments (points c')
    = take i (segments (points c)) ++ (s, pos) :: (pos, e) :: drop (S i) (segments (points c)) /\
    map crack_id (App.handleSplitCrack id i pos cracks) = map crack_id cracks /\
    (forall j d, cracks !! j = Some d -> crack_id d ≠ id ->
                 App.handleSplitCrack id i pos cracks !! j = Some d).
Proof.
  intros Hk Hid Hseg.
  assert (points c !! i = Some s /\ points c !! S i = Some e) as [Hs He].
  { unfold segments in Hseg. apply lookup_zip_with_Some in Hseg
      as (s' & e' & [= -> ->] & Hs & He).
    split; [done|]. by rewrite lookup_tail in He. }
  exists (mkCrack (crack_id c) (App.spliceIn (i + 1) pos (points c))).
  split; [|split; [done|split; [|split; [|split]]]].
  - unfold App.handleSplitCrack. change (map ?f ?l) with (f <$> l).
    rewrite list_lookup_fmap, Hk. simpl.
    by rewrite (proj2 (Z.eqb_eq _ _) Hid).
  - cbn [points]. unfold App.spliceIn.
    rewrite length_app. cbn [length]. rewrite length_take, length_drop.
    pose proof (lookup_lt_Some _ _ _ He). lia.
  - cbn [points]. replace (i + 1)%nat with (S i) by lia. by apply segments_spliceIn.
  - unfold App.handleSplitCrack. rewrite map_map. apply map_ext.
    intros d. by destruct (negb (crack_id d =? id)).
  - intros j d Hj Hne. unfold App.handleSplitCrack. change (map ?f ?l) with (f <$> l).
    rewrite list_lookup_fmap, Hj. simpl.
    by rewrite (proj2 (Z.eqb_neq _ _) Hne).
Qed.

Lemma split_replaces_one_segment_witness :
  exists c',
    App.handleSplitCrack 0 0 (pt 5 6) case1_cracks !! 0%nat = Some c' /\
    segments (points c') = [(pt 1 5, pt 5 6); (pt 5 6, pt 9 5)].
Proof.
  destruct (split_replaces_one_segment 0 0%nat (pt 5 6) case1_cracks 0%nat
              (mkCrack 0 [pt 1 5; pt 9 5]) (pt 1 5) (pt 9 5))
    as (c' & Hc' & _ & _ & Hseg & _); try reflexivity.
  exists c'. split; [exact Hc' | exact Hseg].
Defined.

(** X16.  Dragging point [pointIdx] of the cracks with a given id, when
    every such crack has that point, replaces this point only: ids,
    numbers of points and the other cracks are unchanged, so no crack
    loses a segment.  One past the last point the assignment appends the
    position; further out the array would get holes. *)
Theorem update_crack_point (id : Z) (pointIdx : nat) (pos : Point) cracks :
  (forall c, c ∈ cracks -> crack_id c = id -> (pointIdx < length (points c))%nat) ->
  (exists cracks',
     App.handleUpdateCrack id pointIdx pos cracks = Some cracks' /\
     length cracks' = length cracks /\
     forall k c, cracks !! k = Some c ->
       exists c',
         cracks' !! k = Some c' /\ crack_id c' = crack_id c /\
         length (points c') = length (points c) /\
         (crack_id c ≠ id -> c' = c) /\
         (crack_id c = id ->
          points c' !! pointIdx = Some pos /\
          forall j, j ≠ pointIdx -> points c' !! j = points c !! j)) /\
  (forall pts, App.assignPoint (length pts) pos pts = Some (pts ++ [pos])) /\
  (forall pts j, (length pts < j)%nat -> App.assignPoint j pos pts = None).
Proof.
  intros Hrange. split; [|split].
  - unfold App.handleUpdateCrack.
    set (f := fun c => if negb (crack_id c =? id) then Some c
                       else mkCrack (crack_id c) <$> App.assignPoint pointIdx pos (points c)).
    assert (forall c, c ∈ cracks ->
              exists c', f c = Some c' /\ crack_id c' = crack_id c /\
                length (points c') = length (points c) /\
                (crack_id c ≠ id -> c' = c) /\
                (crack_id c = id ->
                 points c' !! pointIdx = Some pos /\
                 forall j, j ≠ pointIdx -> points c' !! j = points c !! j)) as Hf.
    { intros c Hc. unfold f. destruct (crack_id c =? id) eqn:E; simpl.
      - apply Z.eqb_eq in E. pose proof (Hrange c Hc E) as Hlt.
        unfold App.assignPoint. rewrite decide_True by done. simpl.
        eexists. split; [done|]. split; [done|]. cbn [points].
        split; [apply length_insert|]. split; [done|]. intros _. split.
        + by apply list_lookup_insert_eq.
        + intros j Hj. by apply list_lookup_insert_ne.
      - apply Z.eqb_neq in E. exists c. repeat split; try done. }
    destruct (mapM f cracks) as [cracks'|] eqn:Em.
    + exists cracks'. split; [done|]. apply mapM_Some in Em.
      split; [symmetry; by eapply Forall2_length|].
      intros k c Hk. destruct (Forall2_lookup_l _ _ _ _ _ Em Hk) as (c' & Hk' & Hfc).
      destruct (Hf c (list_elem_of_lookup_2 _ _ _ Hk)) as (c'' & Hfc' & H).
      exists c'. split; [done|]. assert (c' = c'') as -> by congruence. done.
    + exfalso. apply mapM_None in Em. apply Exists_exists in Em as (c & Hc & Hnone).
      destruct (Hf c Hc) as (c' & Hfc & _). congruence.
  - intros pts. unfold App.assignPoint.
    rewrite decide_False by lia. by rewrite decide_True.
  - intros pts j Hj. unfold App.assignPoint.
    rewrite decide_False by lia. rewrite decide_False by lia. done.
Qed.

Lemma update_crack_point_witness :
  exists cracks',
    App.handleUpdateCrack 0 1 (pt 9 7) case1_cracks = Some cracks' /\
    length cracks' = length case1_cracks.
Proof.
  destruct (update_crack_point 0 1%nat (pt 9 7) case1_cracks)
    as ((cracks' & Hrun & Hlen & _) & _).
  - intros c Hc _. apply list_elem_of_singleton in Hc as ->. simpl. lia.
  - exists cracks'. split; [exact Hrun | exact Hlen].
Defined.

(** ** The step index of the player *)

(** X17.  With a nonempty trace the effect that follows a new trace puts
    any index [>= 0] into the range of the trace, and from an index in
    range the skip buttons and the playback timer stay in range; at the
    last step the timer keeps the index and stops the playback. *)
Theorem step_index_stays_in_range (len idx : Z) (isPlaying : bool) :
  1 <= len -> 0 <= idx ->
  0 <= App.clampStepIndex len idx < len /\
  (idx < len ->
   App.clampStepIndex len idx = idx /\
   0 <= App.skipBack idx < len /\
   0 <= App.skipForward len idx < len /\
   0 <= fst (App.tick len idx isPlaying) < len /\
   (idx = len - 1 -> App.tick len idx isPlaying = (idx, false)) /\
   (idx < len - 1 -> App.tick len idx isPlaying = (idx + 1, isPlaying))).
Proof.
  intros Hlen Hidx. unfold App.clampStepIndex, App.skipBack, App.skipForward, App.tick.
  split.
  - destruct (len <=? idx) eqn:E; [lia|]. apply Z.leb_gt in E. lia.
  - intros Hlt. destruct (len <=? idx) eqn:E; [apply Z.leb_le in E; lia|].
    split; [done|]. split; [lia|]. split; [lia|].
    destruct (idx <? len - 1) eqn:E'; cbn [fst];
      rewrite ?Z.ltb_lt, ?Z.ltb_ge in E'; repeat split; intros; try lia; try done;
      f_equal; lia.
Qed.

Lemma step_index_stays_in_range_witness :
  0 <= App.clampStepIndex 24 30 < 24.
Proof.
  apply (proj1 (step_index_stays_in_range 24 30 true ltac:(lia) ltac:(lia))).
Defined.

(** X18.  The step shown is always defined for a trace that a run
    returned: the step at the index when the index is in range, and the
    first step of the trace otherwise. *)
Theorem current_step_defined nodes particles cracks trace (idx : Z) :
  generateSimulationSteps nodes particles cracks = Returns trace ->
  exists s,
    App.currentStep trace idx = Some s /\
    (0 <= idx < Z.of_nat (length trace) -> trace !! Z.to_nat idx = Some s) /\
    (~ 0 <= idx < Z.of_nat (length trace) -> head trace = Some s).
Proof.
  intros Hrun. pose proof (generateSimulationSteps_outcome nodes particles cracks) as H.
  rewrite Hrun in H. destruct H as (acc0 & rest & _ & -> & _).
  unfold App.currentStep.
  destruct (0 <=? idx) eqn:E.
  - apply Z.leb_le in E.
    destruct ((initStep 0 (computeCombinedField acc0) :: rest) !! Z.to_nat idx)
      as [s|] eqn:Es.
    + exists s. split; [done|]. split; [done|]. intros Hout.
      apply lookup_lt_Some in Es. lia.
    + eexists. split; [reflexivity|]. split; [|done]. intros Hin.
      apply lookup_ge_None in Es. lia.
  - apply Z.leb_gt in E. eexists. split; [reflexivity|]. split; [lia | done].
Qed.

Lemma current_step_defined_witness :
  exists s,
    App.currentStep (bareTrace case1_cracks) 99 = Some s /\
    head (bareTrace case1_cracks) = Some s.
Proof.
  destruct (current_step_defined case1_nodes [] case1_cracks (bareTrace case1_cracks) 99)
    as (s & Hs & _ & Hout).
  - vm_compute. reflexivity.
  - exists s. split; [exact Hs|]. apply Hout. vm_compute. intros [_ H]. discriminate.
Defined.

(** ** The shape of a trace *)

Lemma extends_refl ci st : extends ci st st.
Proof.
  exists []. rewrite app_nil_r. split; [done|]. split; [simpl; lia|].
  split; [done|]. split; [done|]. intros idx key labels' _ H. eauto.
Qed.

Lemma extends_trans ci st1 st2 st3 :
  extends ci st1 st2 -> extends ci st2 st3 -> extends ci st1 st3.
Proof.
  intros (new1 & Hs1 & Hc1 & Hn1 & Hd1 & Hf1) (new2 & Hs2 & Hc2 & Hn2 & Hd2 & Hf2).
  exists (new1 ++ new2). split; [by rewrite Hs2, Hs1, app_assoc|].
  split; [rewrite Hc2, Hc1, length_app; lia|]. split; [|split; [congruence|]].
  - intros i s Hi. apply lookup_app_Some in Hi as [Hi | [Hge Hi]].
    + by apply Hn1.
    + destruct (Hn2 _ _ Hi) as (Hid & Hdom & Hkind).
      split; [rewrite Hid, Hc1; lia|]. split; [congruence | done].
  - intros idx key labels3 Hci H3.
    destruct (Hf2 idx key labels3 Hci H3) as (labels2 & H2 & Hl2 & Hj2).
    destruct (Hf1 idx key labels2 Hci H2) as (labels1 & H1 & Hl1 & Hj1).
    exists labels1. split; [done|]. split; [congruence|].
    intros j Hj. rewrite Hj2, Hj1; done.
Qed.

Lemma extends_any idx st st' : extends (Some idx) st st' -> extends None st st'.
Proof.
  intros (new & Hs & Hc & Hn & Hd & _). exists new.
  split; [done|]. split; [done|]. split; [done|]. split; [done|]. done.
Qed.

Lemma wp_conj {S A} F (m : M S A) (Q1 Q2 : A -> S -> Prop) s :
  wp F m Q1 s -> wp F m Q2 s -> wp F m (fun a s' => Q1 a s' /\ Q2 a s') s.
Proof.
  unfold wp. destruct (m s) as [[a s']|e]; auto.
Qed.

Lemma extends_bind {A B} ci (m : M RunState A) (k : A -> M RunState B) st :
  wp anyFailure m (fun _ st1 => extends ci st st1) st ->
  (forall a st1, wp anyFailure (k a) (fun _ st2 => extends ci st1 st2) st1) ->
  wp anyFailure (m ≫= k) (fun _ st2 => extends ci st st2) st.
Proof.
  intros Hm Hk. apply wp_bind. eapply wp_mono; [exact Hm|].
  intros a st1 H1. eapply wp_mono; [apply Hk|].
  intros b st2 H2. exact (extends_trans _ _ _ _ H1 H2).
Qed.

Lemma extends_forEach {A} ci (l : list A) (body : A -> M RunState unit) st :
  (forall a st1, a ∈ l ->
     wp anyFailure (body a) (fun _ st2 => extends ci st1 st2) st1) ->
  wp anyFailure (forEach l body) (fun _ st2 => extends ci st st2) st.
Proof.
  intros Hbody. apply (wp_forEach anyFailure (extends ci st)); [apply extends_refl|].
  intros a st1 Ha H1. eapply wp_mono; [by apply Hbody|].
  intros [] st2 H2. exact (extends_trans _ _ _ _ H1 H2).
Qed.

Lemma extends_ret {A} ci (a : A) st :
  wp anyFailure (mret a) (fun _ st' => extends ci st st') st.
Proof. apply wp_ret, extends_refl. Qed.

Lemma extends_defined {A} ci (o : option A) st :
  wp anyFailure (defined o) (fun _ st' => extends ci st st') st.
Proof. apply wp_defined. destruct o; [apply extends_refl | done]. Qed.

Lemma extends_readSlot ci key crackIdx st :
  wp anyFailure (readSlot key crackIdx) (fun _ st' => extends ci st st') st.
Proof.
  apply wp_readSlot. destruct (fieldAccumulator st !! key) as [labels|]; [|done].
  destruct (labels !! crackIdx); [apply extends_refl | done].
Qed.

Lemma extends_writeSlot key crackIdx v st :
  wp anyFailure (writeSlot key crackIdx v)
     (fun _ st' => extends (Some crackIdx) st st') st.
Proof.
  apply wp_writeSlot. destruct (fieldAccumulator st !! key) as [labels|] eqn:Hkey; [|done].
  destruct (decide (crackIdx < length labels)%nat); [|done].
  exists []. cbn [steps stepCounter fieldAccumulator]. rewrite app_nil_r.
  split; [done|]. split; [simpl; lia|]. split; [done|]. split.
  - apply dom_insert_lookup_L. eauto.
  - intros idx key' labels' [= <-] H.
    destruct (decide (key = key')) as [<- | Hne].
    + rewrite lookup_insert_eq in H. injection H as <-. exists labels.
      split; [done|]. split; [apply length_insert|].
      intros j Hj. by apply list_lookup_insert_ne.
    + rewrite lookup_insert_ne in H by done. eauto.
Qed.

Lemma extends_push ci mk st :
  (forall sid snap, stepId (mk sid snap) = sid /\
                    currentFieldState (mk sid snap) = snap /\
                    isCrackStep (mk sid snap)) ->
  wp anyFailure (push mk) (fun _ st' => extends ci st st') st.
Proof.
  intros Hmk. apply wp_push. eexists [_]. cbn [steps stepCounter fieldAccumulator].
  split; [done|]. split; [done|]. split; [|split; [done|]].
  - intros [|i] s Hi; [|done]. injection Hi as <-.
    destruct (Hmk (stepCounter st) (computeCombinedField (fieldAccumulator st)))
      as (-> & -> & Hkind).
    split; [simpl; lia|]. split; [|done].
    unfold computeCombinedField. apply dom_fmap_L.
  - intros idx key labels' _ H. eauto.
Qed.

Lemma segmentLoop_extends ci p n crack pts : forall i f2 f3 st,
  wp anyFailure (segmentLoop p n crack i pts f2 f3) (fun _ st' => extends ci st st') st.
Proof.
  induction pts as [|a pts IH]; intros i f2 f3 st; [apply extends_ret|].
  destruct pts as [|b l]; [apply extends_ret|].
  cbn [segmentLoop]. apply extends_bind.
  - apply extends_push. intros sid snap. by repeat split.
  - intros [] st1. apply IH.
Qed.

Lemma processPair_extends nodes crack crackIdx p nodeId st :
  wp anyFailure (processPair nodes crack crackIdx p nodeId)
     (fun _ st' => extends (Some crackIdx) st st') st.
Proof.
  unfold processPair.
  apply extends_bind; [apply extends_defined|]. intros n st1.
  apply extends_bind; [apply segmentLoop_extends|]. intros counts st2.
  apply extends_bind; [apply extends_readSlot|]. intros old st3.
  apply extends_bind; [apply extends_writeSlot|]. intros [] st4.
  destruct (_ || _); [|apply extends_ret].
  apply extends_push. intros sid snap. by repeat split.
Qed.

Lemma collectSeen_extends ci n crackIdx pids : forall seen st,
  wp anyFailure (collectSeen n crackIdx pids seen) (fun _ st' => extends ci st st') st.
Proof.
  induction pids as [|pid pids IH]; intros seen st; [apply extends_ret|].
  cbn [collectSeen]. apply extends_bind; [apply extends_readSlot|].
  intros val st1. apply IH.
Qed.

Lemma remapPair_extends n crackIdx a b pid st :
  wp anyFailure (remapPair n crackIdx a b pid)
     (fun _ st' => extends (Some crackIdx) st st') st.
Proof.
  unfold remapPair. apply extends_bind; [apply extends_readSlot|].
  intros val st1. destruct (val =? a); [apply extends_writeSlot | apply extends_ret].
Qed.

Lemma consistencyNode_extends conn crackIdx n st :
  wp anyFailure (consistencyNode conn crackIdx n)
     (fun _ st' => extends (Some crackIdx) st st') st.
Proof.
  unfold consistencyNode.
  apply extends_bind; [apply extends_defined|]. intros pids st1.
  destruct (length pids =? 0)%nat; [apply extends_ret|].
  apply extends_bind; [apply collectSeen_extends|]. intros seen st2.
  apply extends_bind; [apply extends_push; intros sid snap; by repeat split|].
  intros [] st3. apply extends_bind.
  { destruct (_ =? 3)%nat; [|apply extends_ret].
    apply extends_push. intros sid snap. by repeat split. }
  intros [] st4. destruct (_ =? 2)%nat; [|apply extends_ret].
  destruct (negb _); [|apply extends_ret].
  apply extends_bind.
  - apply extends_forEach. intros pid st5 _. apply remapPair_extends.
  - intros [] st5. apply extends_push. intros sid snap. by repeat split.
Qed.

Lemma processCrack_extends nodes particles conn crackIdx crack st :
  wp anyFailure (processCrack nodes particles conn (crackIdx, crack))
     (fun _ st' => extends (Some crackIdx) st st') st.
Proof.
  unfold processCrack. cbn [fst snd].
  apply extends_bind; [apply extends_push; intros sid snap; by repeat split|].
  intros [] st1. apply extends_bind.
  { unfold crossingPhase. apply extends_forEach. intros p st2 _.
    apply extends_bind; [apply extends_defined|]. intros ids st3.
    apply extends_forEach. intros nodeId st4 _. apply processPair_extends. }
  intros [] st2.
  apply extends_bind; [apply extends_push; intros sid snap; by repeat split|].
  intros [] st3. apply extends_forEach. intros n st4 _. apply consistencyNode_extends.
Qed.

Lemma initAccumulator_pairs particles cracks conn :
  wp anyFailure (initAccumulator particles cracks conn)
     (fun _ st => forall key, is_Some (fieldAccumulator st !! key) ->
                              connectedPair particles conn key)
     (mkRun [] 0 ∅).
Proof.
  unfold initAccumulator.
  apply (wp_forEach anyFailure
    (fun st => forall key, is_Some (fieldAccumulator st !! key) ->
                           connectedPair particles conn key)).
  { intros key [l H]. simpl in H. by rewrite lookup_empty in H. }
  intros p st Hp Hst. apply wp_bind, wp_defined.
  destruct (particleToNodes conn !! particle_id p) as [ids|] eqn:Hids; [|done].
  apply (wp_forEach anyFailure
    (fun st => forall key, is_Some (fieldAccumulator st !! key) ->
                           connectedPair particles conn key)); [done|].
  intros nid st' Hnid Hst'. apply wp_modify. cbn [fieldAccumulator].
  intros key Hkey. destruct (decide ((nid, particle_id p) = key)) as [<- | Hne].
  - exists p, ids. by repeat split.
  - rewrite lookup_insert_ne in Hkey by done. by apply Hst'.
Qed.

Lemma recordTrace_shape nodes particles cracks conn :
  connOK nodes particles conn ->
  wp anyFailure (recordTrace nodes particles cracks conn)
     (fun _ st =>
        exists acc0 middle final,
          (forall key, is_Some (acc0 !! key) <-> connectedPair particles conn key) /\
          steps st = initStep 0 (computeCombinedField acc0)
                     :: middle
                     ++ [completeStep (1 + Z.of_nat (length middle)) final] /\
          dom final = dom acc0 /\
          forall i s, middle !! i = Some s ->
            stepId s = 1 + Z.of_nat i /\
            dom (currentFieldState s) = dom acc0 /\
            isCrackStep s)
     (mkRun [] 0 ∅).
Proof.
  intros Hconn. unfold recordTrace. apply wp_bind.
  eapply wp_mono.
  { apply wp_conj; [by eapply (initAccumulator_spec anyFailure)|].
    apply initAccumulator_pairs. }
  intros [] st0 ((Hs & Hc & Hdom & _) & Hpairs).
  apply wp_bind, wp_push. rewrite Hs, Hc. cbn [app].
  set (acc0 := fieldAccumulator st0).
  set (st1 := mkRun _ _ _).
  apply wp_bind. eapply wp_mono.
  { apply (extends_forEach None _ _ st1). intros [i c] st2 _.
    eapply wp_mono; [apply processCrack_extends|]. intros [] st3. apply extends_any. }
  intros [] st2 (middle & Hs2 & Hc2 & Hn2 & Hd2 & _).
  apply wp_push. cbn [steps stepCounter fieldAccumulator] in *.
  exists acc0, middle, (computeCombinedField (fieldAccumulator st2)).
  split; [|split; [|split]].
  - intros key. split; [apply Hpairs|].
    intros (p & ids & Hp & Hids & Hnid & Hkey). destruct key as [nid pid].
    simpl in *. subst pid. by eapply Hdom.
  - rewrite Hs2, Hc2. cbn [app]. by rewrite <- app_assoc.
  - unfold computeCombinedField. rewrite dom_fmap_L. exact Hd2.
  - intros i s Hi. destruct (Hn2 i s Hi) as (Hid & Hds & Hk). by rewrite Hid.
Qed.

Lemma generateSimulationSteps_shape nodes particles cracks trace :
  generateSimulationSteps nodes particles cracks = Returns trace ->
  exists conn acc0 middle final,
    buildConnectivity nodes particles (mkConnectivity ∅ ∅) = Returns (tt, conn) /\
    (forall key, is_Some (acc0 !! key) <-> connectedPair particles conn key) /\
    trace = initStep 0 (computeCombinedField acc0)
            :: middle ++ [completeStep (1 + Z.of_nat (length middle)) final] /\
    dom final = dom acc0 /\
    forall i s, middle !! i = Some s ->
      stepId s = 1 + Z.of_nat i /\
      dom (currentFieldState s) = dom acc0 /\
      isCrackStep s.
Proof.
  unfold generateSimulationSteps. intros Hrun.
  destruct (buildConnectivity_ok nodes particles) as (conn & Hb & Hconn).
  rewrite Hb in Hrun.
  pose proof (recordTrace_shape nodes particles cracks conn Hconn) as H.
  unfold wp in H.
  destruct (recordTrace nodes particles cracks conn (mkRun [] 0 ∅)) as [[[] st]|e];
    [|done].
  injection Hrun as <-.
  destruct H as (acc0 & middle & final & H1 & H2 & H3 & H4).
  exists conn, acc0, middle, final.
  split; [done|]. split; [done|]. split; [done|]. split; done.
Qed.

(** X19.  The steps of a trace are numbered by their position: the step
    at index [i] has [stepId = i]. *)
Theorem step_ids_are_positions nodes particles cracks trace :
  generateSimulationSteps nodes particles cracks = Returns trace ->
  forall i s, trace !! i = Some s -> stepId s = Z.of_nat i.
Proof.
  intros Hrun.
  destruct (generateSimulationSteps_shape _ _ _ _ Hrun)
    as (conn & acc0 & middle & final & _ & _ & -> & _ & Hmid).
  intros [|i] s Hi; [by injection Hi as <-|]. cbn [lookup list_lookup] in Hi.
  apply lookup_app_Some in Hi as [Hi | [Hge Hi]].
  - destruct (Hmid i s Hi) as [-> _]. lia.
  - destruct (i - length middle)%nat as [|k] eqn:Ek; [|done].
    injection Hi as <-. cbn [stepId completeStep]. lia.
Qed.

Lemma step_ids_are_positions_witness :
  exists trace s,
    generateSimulationSteps case1_nodes case1_particles case1_cracks = Returns trace /\
    trace !! 5%nat = Some s /\ stepId s = 5.
Proof.
  destruct (generateSimulationSteps case1_nodes case1_particles case1_cracks)
    as [trace|e] eqn:E.
  - destruct (trace !! 5%nat) as [s|] eqn:Hs.
    + exists trace, s. split; [reflexivity|]. split; [exact Hs|].
      exact (step_ids_are_positions case1_nodes case1_particles case1_cracks trace E
               5%nat s Hs).
    + vm_compute in E. injection E as <-. vm_compute in Hs. discriminate.
  - vm_compute in E. discriminate.
Defined.

(** X20.  A trace starts with the initialization step and ends with the
    completion step, and no step between them is of either kind; so a
    trace has at least two steps. *)
Theorem trace_is_bracketed nodes particles cracks trace :
  generateSimulationSteps nodes particles cracks = Returns trace ->
  exists first middle last,
    trace = first :: middle ++ [last] /\
    description first = Initialization /\
    description last = ComputationComplete /\
    Forall isCrackStep middle /\
    (2 <= length trace)%nat.
Proof.
  intros Hrun.
  destruct (generateSimulationSteps_shape _ _ _ _ Hrun)
    as (conn & acc0 & middle & final & _ & _ & -> & _ & Hmid).
  eexists _, middle, _. split; [reflexivity|]. split; [done|]. split; [done|]. split.
  - apply Forall_lookup. intros i s Hi. by apply (Hmid i s Hi).
  - cbn [length]. rewrite length_app. simpl. lia.
Qed.

Lemma trace_is_bracketed_witness :
  (2 <= length (bareTrace case1_cracks))%nat.
Proof.
  destruct (trace_is_bracketed case1_nodes [] case1_cracks (bareTrace case1_cracks))
    as (first & middle & last & _ & _ & _ & _ & Hlen).
  - vm_compute. reflexivity.
  - exact Hlen.
Defined.

(** X21.  Every snapshot of a trace has the same pairs: the pairs of a
    node id listed for a particle and the id of that particle.  With
    distinct node ids and distinct particle ids, the pair of a node and a
    particle is in a snapshot exactly when the node is among the nearest
    nodes of the particle. *)
Theorem snapshot_pairs nodes particles cracks trace :
  generateSimulationSteps nodes particles cracks = Returns trace ->
  exists conn,
    buildConnectivity nodes particles (mkConnectivity ∅ ∅) = Returns (tt, conn) /\
    (forall s key, s ∈ trace ->
       (is_Some (currentFieldState s !! key) <-> connectedPair particles conn key)) /\
    (NoDup (map node_id nodes) -> NoDup (map particle_id particles) ->
     forall s n p, s ∈ trace -> n ∈ nodes -> p ∈ particles ->
       (is_Some (currentFieldState s !! (node_id n, particle_id p)) <->
        node_id n ∈ map node_id (closestNodes p nodes))).
Proof.
  intros Hrun.
  destruct (generateSimulationSteps_shape _ _ _ _ Hrun)
    as (conn & acc0 & middle & final & Hb & Hpairs & -> & Hfinal & Hmid).
  assert (forall s key,
            s ∈ initStep 0 (computeCombinedField acc0)
                :: middle ++ [completeStep (1 + Z.of_nat (length middle)) final] ->
            (is_Some (currentFieldState s !! key) <-> connectedPair particles conn key))
    as Hall.
  { intros s key Hs. rewrite <- Hpairs, <- !(elem_of_dom (D := gset (Z * Z))).
    apply elem_of_cons in Hs as [-> | Hs].
    - cbn [currentFieldState initStep]. unfold computeCombinedField.
      by rewrite dom_fmap_L.
    - apply elem_of_app in Hs as [Hs | Hs].
      + apply list_elem_of_lookup in Hs as [i Hi].
        destruct (Hmid i s Hi) as (_ & -> & _). done.
      + apply list_elem_of_singleton in Hs as ->.
        cbn [currentFieldState completeStep]. by rewrite Hfinal. }
  exists conn. split; [done|]. split; [done|].
  intros NDn NDp s n p Hs Hn Hp. rewrite (Hall s _ Hs).
  destruct (buildConnectivity_exact nodes particles NDn NDp)
    as (conn' & Hb' & Hptn & _).
  assert (conn' = conn) as -> by congruence.
  split.
  - intros (q & ids & Hq & Hids & Hnid & Hkey). cbn [fst snd] in *.
    rewrite <- Hkey, (Hptn p Hp) in Hids. by injection Hids as <-.
  - intros Hin. exists p, (map node_id (closestNodes p nodes)).
    split; [done|]. split; [by apply Hptn|]. done.
Qed.

Lemma snapshot_pairs_witness :
  exists trace,
    generateSimulationSteps case1_nodes case1_particles case1_cracks = Returns trace /\
    exists conn,
      buildConnectivity case1_nodes case1_particles (mkConnectivity ∅ ∅)
      = Returns (tt, conn).
Proof.
  destruct (generateSimulationSteps case1_nodes case1_particles case1_cracks)
    as [trace|e] eqn:E.
  - exists trace. split; [reflexivity|].
    destruct (snapshot_pairs case1_nodes case1_particles case1_cracks trace E)
      as (conn & Hb & _).
    exists conn. exact Hb.
  - vm_compute in E. discriminate.
Defined.

(** X22.  Processing a crack touches its own layer only: the accumulator
    keeps its pairs, every label array keeps its length, and the labels of
    the other cracks are unchanged; the steps recorded before are kept. *)
Theorem processCrack_frame nodes particles conn crackIdx crack st st' :
  processCrack nodes particles conn (crackIdx, crack) st = Returns (tt, st') ->
  (exists new, steps st' = steps st ++ new) /\
  dom (fieldAccumulator st') = dom (fieldAccumulator st) /\
  forall key labels',
    fieldAccumulator st' !! key = Some labels' ->
    exists labels,
      fieldAccumulator st !! key = Some labels /\
      length labels' = length labels /\
      forall j, j ≠ crackIdx -> labels' !! j = labels !! j.
Proof.
  intros Hrun.
  pose proof (processCrack_extends nodes particles conn crackIdx crack st) as H.
  unfold wp in H. rewrite Hrun in H.
  destruct H as (new & Hs & _ & _ & Hd & Hf).
  split; [eauto|]. split; [done|]. intros key labels' Hk. by eapply Hf.
Qed.

Lemma processCrack_frame_witness :
  let conn := mkConnectivity (list_to_map [(0, [0; 1; 2; 3]); (1, [2; 3; 0; 1])])
                (list_to_map [(0, [0; 1]); (1, [0; 1]); (2, [0; 1]); (3, [0; 1])]) in
  let acc : gmap (Z * Z) (list Z) :=
    list_to_map [((0, 0), [1; 2]); ((1, 0), [1; 2]); ((2, 0), [1; 2]); ((3, 0), [1; 2]);
                 ((0, 1), [1; 3]); ((1, 1), [1; 3]); ((2, 1), [1; 3]); ((3, 1), [1; 3])] in
  exists st',
    processCrack case1_nodes case1_particles conn (0%nat, mkCrack 0 [pt 1 5; pt 9 5])
      (mkRun [] 0 acc) = Returns (tt, st') /\
    forall key labels', fieldAccumulator st' !! key = Some labels' ->
      exists labels, acc !! key = Some labels /\ length labels' = length labels /\
                     forall j, j ≠ 0%nat -> labels' !! j = labels !! j.
Proof.
  intros conn acc.
  destruct (processCrack case1_nodes case1_particles conn
              (0%nat, mkCrack 0 [pt 1 5; pt 9 5]) (mkRun [] 0 acc))
    as [[[] st']|e] eqn:E.
  - exists st'. split; [reflexivity|].
    apply (processCrack_frame case1_nodes case1_particles conn 0
             (mkCrack 0 [pt 1 5; pt 9 5]) _ st' E).
  - vm_compute in E. discriminate.
Defined.

(** ** The consistency pass, once more *)

Lemma remap_decision_by_set (s1 s2 : list Z) :
  NoDup s1 -> NoDup s2 -> (forall v, v ∈ s1 <-> v ∈ s2) ->
  remapActive (sortNumeric s1) = remapActive (sortNumeric s2) /\
  remapChoice (sortNumeric s1) = remapChoice (sortNumeric s2).
Proof.
  intros N1 N2 H.
  assert (length (sortNumeric s1) = length (sortNumeric s2)) as Hlen.
  { unfold sortNumeric. rewrite !length_stableSort.
    apply Permutation_length. by apply NoDup_Permutation. }
  assert (forall v, includes v (sortNumeric s1) = includes v (sortNumeric s2)) as Hinc.
  { intros v. unfold includes, sortNumeric. apply bool_decide_ext.
    by rewrite !elem_of_stableSort. }
  assert (remapChoice (sortNumeric s1) = remapChoice (sortNumeric s2)) as Hch.
  { unfold remapChoice. by rewrite !Hinc. }
  split; [|done]. unfold remapActive. by rewrite Hlen, Hch.
Qed.

Lemma remapChoice_from_one l :
  fst (remapChoice l) ≠ -1 -> 1 ∈ l /\ fst (remapChoice l) = 1 /\ snd (remapChoice l) ≠ 1.
Proof.
  unfold remapChoice, includes.
  destruct (bool_decide (1 ∈ l)) eqn:E1; cbn [andb].
  - apply bool_decide_eq_true in E1.
    destruct (bool_decide (2 ∈ l)); [done|]. destruct (bool_decide (3 ∈ l)); done.
  - done.
Qed.

(** X23.  The consistency pass at a node changes only label arrays of
    pairs of that node, and it settles at once: run again on its own
    result it leaves the accumulator as it is. *)
Theorem consistencyNode_local_and_stable conn crackIdx n pids st :
  nodeToParticles conn !! node_id n = Some pids ->
  slotsPresent (fieldAccumulator st) n pids crackIdx ->
  exists st1 st2,
    consistencyNode conn crackIdx n st = Returns (tt, st1) /\
    consistencyNode conn crackIdx n st1 = Returns (tt, st2) /\
    fieldAccumulator st2 = fieldAccumulator st1 /\
    forall key, fst key ≠ node_id n ->
                fieldAccumulator st1 !! key = fieldAccumulator st !! key.
Proof.
  intros Hconn Hpres.
  destruct (decide (pids = [])) as [-> | Hne].
  { exists st, st. unfold consistencyNode.
    rewrite !(run_bind _ _ _ [] _) by (by rewrite Hconn). by repeat split. }
  pose proof (consistencyNode_spec never conn crackIdx n pids st Hconn Hne
                (slotsPresent_usable _ _ _ _ _ Hpres)) as H1.
  apply wp_returns in H1 as ([] & st1 & Hrun1 & seen1 & Hnd1 & Hseen1 & _ & H1).
  cbv zeta in H1.
  assert (slotsPresent (fieldAccumulator st1) n pids crackIdx /\
          (forall key, fst key ≠ node_id n ->
             fieldAccumulator st1 !! key = fieldAccumulator st !! key) /\
          (remapActive (sortNumeric seen1) = true ->
           forall v, sees (fieldAccumulator st1) n pids crackIdx v -> v ≠ 1) /\
          (remapActive (sortNumeric seen1) = false ->
           fieldAccumulator st1 = fieldAccumulator st)) as (Hpres1 & Hlocal & Hno1 & Hsame).
  { destruct (remapActive (sortNumeric seen1)) eqn:Hact.
    - destruct H1 as (Hin & Hout & _).
      unfold remapActive in Hact. apply andb_true_iff in Hact as [_ Hfrom].
      apply negb_true_iff, Z.eqb_neq in Hfrom.
      destruct (remapChoice_from_one _ Hfrom) as (_ & Ea & Hb).
      split; [|split; [|split; [|done]]].
      + intros pid Hpid. destruct (Hpres pid Hpid) as [v Hv].
        unfold labelAt in *. rewrite (Hin pid Hpid).
        destruct (fieldAccumulator st !! (node_id n, pid)) as [labels|]; [|done].
        simpl in *. apply lookup_lt_is_Some. rewrite remapped_length.
        by eapply lookup_lt_Some.
      + intros key Hkey. apply Hout. intros pid _ ->. done.
      + intros _ v (pid & Hpid & Hv) ->. unfold labelAt in Hv.
        rewrite (Hin pid Hpid) in Hv.
        destruct (fieldAccumulator st !! (node_id n, pid)) as [labels|]; [|done].
        simpl in Hv. unfold remapped in Hv. rewrite Ea in Hv.
        destruct (decide (labels !! crackIdx = Some 1)) as [E | E]; [|done].
        rewrite list_lookup_insert_eq in Hv by (by eapply lookup_lt_Some). congruence.
    - destruct H1 as (Hacc & _). rewrite Hacc. by repeat split. }
  pose proof (consistencyNode_spec never conn crackIdx n pids st1 Hconn Hne
                (slotsPresent_usable _ _ _ _ _ Hpres1)) as H2.
  apply wp_returns in H2 as ([] & st2 & Hrun2 & seen2 & Hnd2 & Hseen2 & _ & H2).
  cbv zeta in H2.
  exists st1, st2. split; [done|]. split; [done|]. split; [|done].
  destruct (remapActive (sortNumeric seen2)) eqn:Hact2; [|by destruct H2].
  exfalso. destruct (remapActive (sortNumeric seen1)) eqn:Hact1.
  - unfold remapActive in Hact2. apply andb_true_iff in Hact2 as [_ Hfrom].
    apply negb_true_iff, Z.eqb_neq in Hfrom.
    destruct (remapChoice_from_one _ Hfrom) as (Hin1 & _).
    unfold sortNumeric in Hin1. apply elem_of_stableSort, Hseen2 in Hin1.
    by apply (Hno1 eq_refl 1 Hin1).
  - destruct (remap_decision_by_set seen1 seen2 Hnd1 Hnd2) as [E _].
    { intros v. by rewrite Hseen1, Hseen2, (Hsame eq_refl). }
    congruence.
Qed.

Lemma consistencyNode_local_and_stable_witness :
  exists st1 st2,
    consistencyNode (mkConnectivity ∅ {[ 0 := [0; 1] ]}) 0 (mkNode 0 (pt 2 2))
      (mkRun [] 0 {[ (0, 0) := [1]; (0, 1) := [2] ]}) = Returns (tt, st1) /\
    consistencyNode (mkConnectivity ∅ {[ 0 := [0; 1] ]}) 0 (mkNode 0 (pt 2 2)) st1
    = Returns (tt, st2) /\
    fieldAccumulator st2 = fieldAccumulator st1.
Proof.
  destruct (consistencyNode_local_and_stable (mkConnectivity ∅ {[ 0 := [0; 1] ]}) 0%nat
              (mkNode 0 (pt 2 2)) [0; 1]
              (mkRun [] 0 {[ (0, 0) := [1]; (0, 1) := [2] ]}))
    as (st1 & st2 & H1 & H2 & H3 & _).
  - reflexivity.
  - intros pid Hpid. apply elem_of_cons in Hpid as [-> | Hpid]; [by eexists|].
    apply list_elem_of_singleton in Hpid as ->. by eexists.
  - exists st1, st2. split; [exact H1|]. split; [exact H2 | exact H3].
Defined.
